(** * YouTube transcriber: a shallow embedding of [youtube_transcriber.py]

    The development follows the class [YouTubeTranscriber]:

    - Python strings are [string]s; the two regular expressions of
      [extract_video_id] are terms of a small regex syntax run by a
      backtracking matcher that follows Python's [re.search]
      (leftmost match, ordered alternation, greedy quantifiers);
    - numbers of seconds are rationals ([Q]) with Python's floor
      division, modulo and [int];
    - the [options] dictionary is a [gmap string pyval];
    - the methods that print, touch the file system or call a
      collaborator (caption API, downloader, recogniser) are written in
      a state-and-exception monad over a [World]; the collaborators are
      arbitrary functions, gathered in a record.

    Limits of the model:

    - a string is a sequence of bytes (UTF-8); [strip] and [title] know
      the white space and the letters of ASCII only;
    - a number of seconds stands for its exact value: the rounding of
      floating-point arithmetic is not modelled, nor are NaN and the
      infinities;
    - the disk is the set of the paths that exist, compared as strings;
    - the field [calls] of the world is a ghost: a log of the methods
      entered, kept to state what a run does and does not do;
    - the progress bar of the download hook goes to standard error and
      is left out. *)

From Stdlib Require Import ZArith QArith Qround Lqa Ascii String List Bool Lia DecimalString.
From stdpp Require Import base gmap strings.

Import ListNotations.
Local Open Scope string_scope.
Local Open Scope list_scope.

(** ** Strings *)

Module Str.

Definition newline : ascii := "010"%char.

Fixpoint strip_prefix (p s : string) : option string :=
  match p, s with
  | EmptyString, _ => Some s
  | String a p', String b s' =>
      if Ascii.eqb a b then strip_prefix p' s' else None
  | String _ _, EmptyString => None
  end.

Fixpoint take_while (f : ascii -> bool) (s : string) : string :=
  match s with
  | String c s' => if f c then String c (take_while f s') else EmptyString
  | EmptyString => EmptyString
  end.

Fixpoint drop_while (f : ascii -> bool) (s : string) : string :=
  match s with
  | String c s' => if f c then drop_while f s' else s
  | EmptyString => EmptyString
  end.

Fixpoint all (f : ascii -> bool) (s : string) : bool :=
  match s with
  | String c s' => f c && all f s'
  | EmptyString => true
  end.

Fixpoint rev_onto (s acc : string) : string :=
  match s with
  | String c s' => rev_onto s' (String c acc)
  | EmptyString => acc
  end.

Definition rev (s : string) : string := rev_onto s EmptyString.

Fixpoint repeat (s : string) (n : nat) : string :=
  match n with
  | O => EmptyString
  | S n' => String.append s (repeat s n')
  end.

Definition mem (c : ascii) (cs : list ascii) : bool :=
  existsb (Ascii.eqb c) cs.

(** [s.replace(old, new)] for a non-empty [old]: every occurrence,
    left to right, without overlap. [skip] counts the characters of an
    occurrence still to be dropped. *)
Fixpoint replace_from (old new : string) (skip : nat) (s : string) : string :=
  match s with
  | EmptyString => EmptyString
  | String c s' =>
      match skip with
      | S n => replace_from old new n s'
      | O =>
          match strip_prefix old s with
          | Some _ =>
              String.append new (replace_from old new (String.length old - 1) s')
          | None => String c (replace_from old new 0 s')
          end
      end
  end.

Definition replace (old new s : string) : string := replace_from old new 0 s.

(** White space as [str.strip] sees it, within ASCII. *)
Definition is_space (c : ascii) : bool :=
  let n := nat_of_ascii c in
  ((9 <=? n) && (n <=? 13) || (28 <=? n) && (n <=? 32))%nat.

Definition lstrip (s : string) : string := drop_while is_space s.

Definition rstrip (s : string) : string := rev (drop_while is_space (rev s)).

(** [s.strip()] *)
Definition strip (s : string) : string := rstrip (lstrip s).

Definition is_lower (c : ascii) : bool :=
  let n := nat_of_ascii c in ((97 <=? n) && (n <=? 122))%nat.

Definition is_upper (c : ascii) : bool :=
  let n := nat_of_ascii c in ((65 <=? n) && (n <=? 90))%nat.

Definition upper (c : ascii) : ascii :=
  if is_lower c then ascii_of_nat (nat_of_ascii c - 32) else c.

Definition lower (c : ascii) : ascii :=
  if is_upper c then ascii_of_nat (nat_of_ascii c + 32) else c.

(** [s.title()] on ASCII letters: a letter that follows a letter is
    lowered, any other letter is raised. *)
Fixpoint title_from (prev_cased : bool) (s : string) : string :=
  match s with
  | EmptyString => EmptyString
  | String c s' =>
      if is_lower c || is_upper c then
        String (if prev_cased then lower c else upper c) (title_from true s')
      else String c (title_from false s')
  end.

Definition title (s : string) : string := title_from false s.

End Str.

(** ** Regular expressions, as far as the two patterns need them *)

Module Re.

(** One-character items. *)
Inductive cclass :=
| NoneOf (cs : list ascii)   (* [^...] *)
| Dot.                       (* .  (no DOTALL: anything but a newline) *)

Definition cmatch (cl : cclass) (c : ascii) : bool :=
  match cl with
  | NoneOf cs => negb (Str.mem c cs)
  | Dot => negb (Ascii.eqb c Str.newline)
  end.

Inductive regex :=
| Lit (s : string)           (* literal characters, escapes resolved *)
| Star (cl : cclass)         (* cl*  greedy *)
| Plus (cl : cclass)         (* cl+  greedy *)
| Seq (r1 r2 : regex)
| Alt (r1 r2 : regex)        (* r1|r2, r1 tried first *)
| Group (r : regex).         (* ( r ), the capturing group 1 *)

(** A match object, reduced to what the caller reads: [group(1)]. *)
Definition matchobj := option string.

Definition cont := string -> matchobj -> option matchobj.

(** Greedy repetition of a one-character item: longest run first, then
    shorter ones while the continuation fails. *)
Fixpoint star (cl : cclass) (s : string) (k : string -> option matchobj)
  : option matchobj :=
  match s with
  | String c s' =>
      if cmatch cl c then
        match star cl s' k with
        | Some m => Some m
        | None => k s
        end
      else k s
  | EmptyString => k s
  end.

Definition plus (cl : cclass) (s : string) (k : string -> option matchobj)
  : option matchobj :=
  match s with
  | String c s' => if cmatch cl c then star cl s' k else None
  | EmptyString => None
  end.

(** The text consumed between [s] and its suffix [s']. *)
Definition consumed (s s' : string) : string :=
  String.substring 0 (String.length s - String.length s') s.

Fixpoint run (r : regex) (s : string) (g : matchobj) (k : cont)
  : option matchobj :=
  match r with
  | Lit l =>
      match Str.strip_prefix l s with
      | Some s' => k s' g
      | None => None
      end
  | Star cl => star cl s (fun s' => k s' g)
  | Plus cl => plus cl s (fun s' => k s' g)
  | Seq r1 r2 => run r1 s g (fun s' g' => run r2 s' g' k)
  | Alt r1 r2 =>
      match run r1 s g k with
      | Some m => Some m
      | None => run r2 s g k
      end
  | Group r1 => run r1 s g (fun s' _ => k s' (Some (consumed s s')))
  end.

(** [re.match]: a match starting at the head of [s]. *)
Definition match_here (r : regex) (s : string) : option matchobj :=
  run r s None (fun _ g => Some g).

(** [re.search]: the match at the leftmost position that has one. *)
Fixpoint search (r : regex) (s : string) : option matchobj :=
  match match_here r s with
  | Some m => Some m
  | None =>
      match s with
      | String _ s' => search r s'
      | EmptyString => None
      end
  end.

End Re.

(** ** [extract_video_id] and [is_valid_youtube_url] *)

Definition id_stops : list ascii := ["&"; Str.newline; "?"; "#"]%char.

(** [(?:youtube\.com\/watch\?v=|youtu\.be\/|youtube\.com\/embed\/)([^&\n?#]+)] *)
Definition pattern1 : Re.regex :=
  Re.Seq
    (Re.Alt (Re.Lit "youtube.com/watch?v=")
       (Re.Alt (Re.Lit "youtu.be/") (Re.Lit "youtube.com/embed/")))
    (Re.Group (Re.Plus (Re.NoneOf id_stops))).

(** [youtube\.com\/watch\?.*v=([^&\n?#]+)] *)
Definition pattern2 : Re.regex :=
  Re.Seq (Re.Lit "youtube.com/watch?")
    (Re.Seq (Re.Star Re.Dot)
       (Re.Seq (Re.Lit "v=") (Re.Group (Re.Plus (Re.NoneOf id_stops))))).

Definition patterns : list Re.regex := [pattern1; pattern2].

Fixpoint first_match (ps : list Re.regex) (url : string) : option string :=
  match ps with
  | [] => None
  | pattern :: ps' =>
      match Re.search pattern url with
      | Some m => m
      | None => first_match ps' url
      end
  end.

Definition extract_video_id (url : string) : option string :=
  first_match patterns url.

Definition is_valid_youtube_url (url : string) : bool :=
  match extract_video_id url with
  | Some _ => true
  | None => false
  end.

(** ** Numbers of seconds and [format_timestamp] *)

Module Num.

(** [x // y] on numbers: the floor of the quotient, as a number. *)
Definition floordiv (x y : Q) : Q := inject_Z (Qfloor (x / y)).

(** [x % y]: the remainder that goes with [//] (for [y > 0] it lies in
    [0, y)). *)
Definition mod_ (x y : Q) : Q := x - y * floordiv x y.

(** [int(x)]: truncation towards zero. *)
Definition int (x : Q) : Z := Z.quot (Qnum x) (Zpos (Qden x)).

(** [str(n)] for an integer. *)
Definition str_int (n : Z) : string := NilZero.string_of_int (Z.to_int n).

(** The format spec [02d]: decimal, padded with zeros on the left up to
    width 2. *)
Definition fmt_02d (n : Z) : string :=
  let s := str_int n in
  if (String.length s <? 2)%nat then String.append "0" s else s.

End Num.

Definition format_timestamp (seconds : Q) : string :=
  let hours := Num.int (Num.floordiv seconds 3600) in
  let minutes := Num.int (Num.floordiv (Num.mod_ seconds 3600) 60) in
  let secs := Num.int (Num.mod_ seconds 60) in
  if (hours >? 0)%Z then
    Num.fmt_02d hours +:+ ":" +:+ Num.fmt_02d minutes +:+ ":" +:+ Num.fmt_02d secs
  else
    Num.fmt_02d minutes +:+ ":" +:+ Num.fmt_02d secs.

(** ** Python values, dictionaries, exceptions *)

(** The values stored in [options]: flags and the model name. *)
Inductive pyval :=
| PBool (b : bool)
| PStr (s : string).

(** Truth value of [v] in [if v:] / [if not v:]. *)
Definition truthy (v : pyval) : bool :=
  match v with
  | PBool b => b
  | PStr s => negb (String.eqb s "")
  end.

(** [str(v)], as an f-string renders it. *)
Definition py_str (v : pyval) : string :=
  match v with
  | PBool true => "True"
  | PBool false => "False"
  | PStr s => s
  end.

(** [str(x)] for an [Optional[str]]. *)
Definition str_optional (x : option string) : string :=
  match x with
  | Some s => s
  | None => "None"
  end.

(** [d.get(key, dflt)] *)
Definition dict_get (d : gmap string pyval) (key : string) (dflt : pyval) : pyval :=
  default dflt (d !! key).

(** Exceptions: the class, as far as an [except] clause of the program
    tells classes apart, and [str(e)]. All of them derive from
    [Exception]. *)
Inductive exn_class :=
| Exception
| KeyError
| TranscriptsDisabled
| NoTranscriptFound
| VideoUnavailable
| OtherError.

Record exn := Exn { exn_cls : exn_class; exn_str : string }.

(** A transcript segment is a dictionary with the keys ['text'],
    ['start'] and ['duration']; [None] stands for an absent key. *)
Record segment := Segment {
  seg_text : option string;
  seg_start : option Q;
  seg_duration : option Q
}.

(** ** The world: disk, standard output, the object's field *)

Inductive call :=
| Call_get_youtube_transcript (video_id : option string)
| Call_download_audio (url output_path : string)
| Call_transcribe_audio_local (audio_path : string) (model_size : pyval)
| Call_local_transcription (url : string)
| Call_print_transcript (source : string).

Record World := mkWorld {
  fs : gset string;          (* the paths that exist on disk *)
  stdout : list string;      (* one entry per [print] *)
  temp_dir : option string;  (* [self.temp_dir] *)
  calls : list call          (* ghost: the methods entered so far *)
}.

Inductive result (A : Type) :=
| Ret (a : A)
| Raise (e : exn).
Arguments Ret {A} a.
Arguments Raise {A} e.

Definition M (A : Type) : Type := World -> result A * World.

Definition ret {A} (a : A) : M A := fun w => (Ret a, w).

Definition raise {A} (e : exn) : M A := fun w => (Raise e, w).

Definition bind {A B} (m : M A) (k : A -> M B) : M B :=
  fun w =>
    match m w with
    | (Ret a, w') => k a w'
    | (Raise e, w') => (Raise e, w')
    end.

#[global] Instance M_ret : MRet M := @ret.
#[global] Instance M_bind : MBind M := fun A B k m => bind m k.

(** [try: body  except Exception as e: handler e] *)
Definition try_except {A} (body : M A) (handler : exn -> M A) : M A :=
  fun w =>
    match body w with
    | (Ret a, w') => (Ret a, w')
    | (Raise e, w') => handler e w'
    end.

(** [try: body  finally: cleanup] *)
Definition try_finally {A} (body : M A) (cleanup : M unit) : M A :=
  fun w =>
    match body w with
    | (r, w') =>
        match cleanup w' with
        | (Ret _, w'') => (r, w'')
        | (Raise e, w'') => (Raise e, w'')
        end
    end.

Definition print (line : string) : M unit :=
  fun w => (Ret tt, mkWorld (fs w) (stdout w ++ [line]) (temp_dir w) (calls w)).

Definition enter (c : call) : M unit :=
  fun w => (Ret tt, mkWorld (fs w) (stdout w) (temp_dir w) (calls w ++ [c])).

Definition set_temp_dir (d : option string) : M unit :=
  fun w => (Ret tt, mkWorld (fs w) (stdout w) d (calls w)).

Definition get_temp_dir : M (option string) :=
  fun w => (Ret (temp_dir w), w).

(** A call into a collaborator: it sees the disk, returns or raises,
    and may leave the disk changed. *)
Definition collab (A : Type) : Type := gset string -> (exn + A) * gset string.

Definition extern {A} (c : collab A) : M A :=
  fun w =>
    match c (fs w) with
    | (inr a, fs') => (Ret a, mkWorld fs' (stdout w) (temp_dir w) (calls w))
    | (inl e, fs') => (Raise e, mkWorld fs' (stdout w) (temp_dir w) (calls w))
    end.

Definition lift {A} (x : exn + A) : M A :=
  match x with
  | inr a => ret a
  | inl e => raise e
  end.

(** *** Paths *)

Module Path.

(** [os.path.exists] *)
Definition exists_ (p : string) : M bool :=
  fun w => (Ret (bool_decide (p ∈ fs w)), w).

Definition ends_with_slash (a : string) : bool :=
  match Str.rev a with
  | String c _ => Ascii.eqb c "/"
  | EmptyString => false
  end.

(** [os.path.join a b] on POSIX. *)
Definition join (a b : string) : string :=
  match b with
  | String "/" _ => b
  | _ =>
      if String.eqb a "" || ends_with_slash a then a +:+ b
      else a +:+ "/" +:+ b
  end.

(** [p] is [d] itself or lies below it. *)
Definition within (d p : string) : bool :=
  String.eqb p d || String.prefix (d +:+ "/") p.

(** [shutil.rmtree d]: the directory and all it holds are gone. *)
Definition rmtree (d : string) : M unit :=
  fun w =>
    (Ret tt,
     mkWorld (filter (fun p => within d p = false) (fs w))
       (stdout w) (temp_dir w) (calls w)).

End Path.

(** ** Collaborators *)

(** A raw caption cue: a dictionary with ['text'], ['start'] and maybe
    ['duration']. *)
Record cue := Cue {
  cue_text : option string;
  cue_start : option Q;
  cue_duration : option Q
}.

Record transcript := Transcript {
  fetch : collab (list cue)
}.

Record transcript_list := TranscriptList {
  find_transcript : list string -> exn + transcript;
  transcript_data_keys : list string   (* [_transcript_data.keys()] *)
}.

(** The ['status'] of a progress dictionary handed to the hook. *)
Inductive status := Downloading | Finished | OtherStatus.

(** What one [ydl.download([url])] does: the progress it reports, the
    disk it leaves, and the error it raises, if any. *)
Record download := Download {
  dl_progress : list status;
  dl_fs : gset string;
  dl_error : option exn
}.

Record whisper_segment := WhisperSegment {
  ws_start : Q;
  ws_end : Q;
  ws_text : string
}.

Record whisper_result := WhisperResult {
  wr_language : option string;
  wr_segments : list whisper_segment
}.

Record whisper_model := WhisperModel {
  transcribe : string -> collab whisper_result
}.

Record collaborators := Collaborators {
  list_transcripts : option string -> collab transcript_list;
  ydl_download : string -> string -> gset string -> download;
  load_model : pyval -> collab whisper_model;
  tmp_root : string;                      (* [tempfile.gettempdir()] *)
  mkdtemp_name : gset string -> string    (* the random part of the name *)
}.

(** ** The class [YouTubeTranscriber] *)

Section YouTubeTranscriber.

Variable env : collaborators.

Definition convert_cue (item : cue) : M segment :=
  text ← lift (match cue_text item with
               | Some t => inr t
               | None => inl (Exn KeyError "'text'")
               end);
  start ← lift (match cue_start item with
                | Some t => inr t
                | None => inl (Exn KeyError "'start'")
                end);
  ret (Segment (Some text) (Some start) (Some (default 0%Q (cue_duration item)))).

Fixpoint convert_cues (items : list cue) (formatted : list segment)
  : M (list segment) :=
  match items with
  | [] => ret formatted
  | item :: rest =>
      s ← convert_cue item;
      convert_cues rest (formatted ++ [s])
  end.

Definition get_youtube_transcript (video_id : option string) : M (list segment) :=
  enter (Call_get_youtube_transcript video_id);;
  try_except
    (transcript_list ← extern (list_transcripts env video_id);
     transcript ←
       try_except
         (lift (find_transcript transcript_list ["en"]))
         (fun _ =>
            match transcript_data_keys transcript_list with
            | first :: _ => lift (find_transcript transcript_list [first])
            | [] => raise (Exn Exception "No transcripts available")
            end);
     transcript_data ← extern (fetch transcript);
     convert_cues transcript_data [])
    (fun e =>
       match exn_cls e with
       | TranscriptsDisabled | NoTranscriptFound | VideoUnavailable =>
           raise (Exn Exception ("No YouTube transcript available: " +:+ exn_str e))
       | _ =>
           raise (Exn Exception ("Error fetching transcript: " +:+ exn_str e))
       end).

(** [ProgressHook.__call__]; the progress bar itself goes to standard
    error and is left out. *)
Definition progress_hook (d : status) : M unit :=
  match d with
  | Finished => print "✅ Download completed"
  | _ => ret tt
  end.

Fixpoint run_hooks (ds : list status) : M unit :=
  match ds with
  | [] => ret tt
  | d :: rest => progress_hook d;; run_hooks rest
  end.

(** [with yt_dlp.YoutubeDL(ydl_opts) as ydl: ydl.download([url])] *)
Definition ydl_run (url outtmpl : string) : M unit :=
  fun w =>
    let o := ydl_download env url outtmpl (fs w) in
    (run_hooks (dl_progress o);;
     match dl_error o with
     | Some e => raise e
     | None => ret tt
     end) (mkWorld (dl_fs o) (stdout w) (temp_dir w) (calls w)).

Definition audio_exts : list string := [".m4a"; ".webm"; ".mp4"; ".mp3"].

Fixpoint probe (base_path : string) (exts : list string) : M (option string) :=
  match exts with
  | [] => ret None
  | ext :: rest =>
      let potential_path := base_path +:+ ext in
      found ← Path.exists_ potential_path;
      if (found : bool) then ret (Some potential_path) else probe base_path rest
  end.

Definition download_audio (url output_path : string) : M string :=
  enter (Call_download_audio url output_path);;
  print "📥 Downloading audio...";;
  try_except
    (ydl_run url output_path;;
     let base_path := Str.replace ".%(ext)s" "" output_path in
     found ← probe base_path audio_exts;
     match found with
     | Some potential_path => ret potential_path
     | None => raise (Exn Exception "Downloaded file not found")
     end)
    (fun e => raise (Exn Exception ("Download failed: " +:+ exn_str e))).

(** The body of the loop over [result['segments']]. *)
Definition adapt (ws : whisper_segment) : segment :=
  Segment (Some (Str.strip (ws_text ws)))
          (Some (ws_start ws))
          (Some (ws_end ws - ws_start ws)%Q).

Definition transcribe_audio_local (audio_path : string) (model_size : pyval)
  : M (list segment) :=
  enter (Call_transcribe_audio_local audio_path model_size);;
  print "🎙️  Initializing Whisper model...";;
  try_except
    (print ("🔄 Loading Whisper '" +:+ py_str model_size
            +:+ "' model (this may take a while on first run)...");;
     model ← extern (load_model env model_size);
     print "📝 Transcribing audio...";;
     result ← extern (transcribe model audio_path);
     match wr_language result with
     | Some l => print ("🌍 Detected language: " +:+ Str.title l)
     | None => ret tt
     end;;
     ret (fold_left (fun segments ws => segments ++ [adapt ws])
            (wr_segments result) []))
    (fun e => raise (Exn Exception ("Local transcription failed: " +:+ exn_str e))).

(** [tempfile.mkdtemp()]: a new directory [<tmp_root>/tmp<name>]. *)
Definition mkdtemp : M string :=
  fun w =>
    let d := Path.join (tmp_root env) ("tmp" +:+ mkdtemp_name env (fs w)) in
    (Ret d, mkWorld ({[d]} ∪ fs w) (stdout w) (temp_dir w) (calls w)).

Definition cleanup : M unit :=
  d ← get_temp_dir;
  match d with
  | Some dir =>
      if negb (String.eqb dir "") then
        there ← Path.exists_ dir;
        if (there : bool) then Path.rmtree dir else ret tt
      else ret tt
  | None => ret tt
  end.

Definition local_transcription (url : string) (options : gmap string pyval)
  : M (list segment) :=
  enter (Call_local_transcription url);;
  dir ← mkdtemp;
  set_temp_dir (Some dir);;
  let video_id := extract_video_id url in
  let audio_path := Path.join dir (str_optional video_id +:+ ".%(ext)s") in
  try_finally
    (try_except
       (downloaded_path ← download_audio url audio_path;
        segments ← transcribe_audio_local downloaded_path
                     (dict_get options "model" (PStr "small"));
        ret segments)
       (fun e => raise e))
    cleanup.

Definition nl : string := String Str.newline "".

Definition print_segment (show_timestamps : pyval) (seg : segment) : M unit :=
  '(timestamp, text) ←
    match seg_start seg with
    | Some start =>
        text ← lift (match seg_text seg with
                     | Some t => inr t
                     | None => inl (Exn KeyError "'text'")
                     end);
        ret (format_timestamp start, text)
    | None =>
        ret (format_timestamp 0, default "" (seg_text seg))
    end;
  if truthy show_timestamps then print ("[" +:+ timestamp +:+ "] " +:+ text)
  else print text.

Fixpoint print_segments (show_timestamps : pyval) (segments : list segment)
  : M unit :=
  match segments with
  | [] => ret tt
  | seg :: rest =>
      print_segment show_timestamps seg;;
      print_segments show_timestamps rest
  end.

Definition print_transcript (segments : list segment) (show_timestamps : pyval)
    (source : string) : M unit :=
  enter (Call_print_transcript source);;
  (if negb (String.eqb source "") then
     print (nl +:+ "Transcript (Source: " +:+ source +:+ ")" +:+ nl)
   else print (nl +:+ "Transcript" +:+ nl));;
  print (Str.repeat "=" 60);;
  print_segments show_timestamps segments;;
  print (nl +:+ Str.repeat "=" 60);;
  print ("Total segments: " +:+ Num.str_int (Z.of_nat (length segments))).

Definition get_transcript (url : string) (options : gmap string pyval) : M unit :=
  if negb (is_valid_youtube_url url) then
    raise (Exn Exception "Invalid YouTube URL provided")
  else
    let video_id := extract_video_id url in
    print ("Processing video: " +:+ str_optional video_id);;
    returned ←
      (if negb (truthy (dict_get options "local_only" (PBool false))) then
         try_except
           (print "🔍 Checking for YouTube transcript...";;
            segments ← get_youtube_transcript video_id;
            print_transcript segments
              (dict_get options "timestamps" (PBool true)) "YouTube";;
            ret true)
           (fun e =>
              if truthy (dict_get options "no_local" (PBool false)) then
                raise (Exn Exception ("No transcript available: " +:+ exn_str e))
              else
                print ("⚠️  " +:+ exn_str e);;
                print "🔄 Falling back to local transcription...";;
                ret false)
       else ret false);
    if (returned : bool) then ret tt
    else
      try_except
        (segments ← local_transcription url options;
         print_transcript segments
           (dict_get options "timestamps" (PBool true)) "Local AI")
        (fun e => raise (Exn Exception ("Local transcription failed: " +:+ exn_str e))).

End YouTubeTranscriber.

(** ** The command line *)

(** What the parser found on the command line: the positional argument
    and, for each option, whether it was given. *)
Record cli := Cli {
  cli_url : string;
  cli_timestamps : bool;       (* [-t] / [--timestamps] *)
  cli_no_timestamps : bool;    (* [--no-timestamps] *)
  cli_local_only : bool;       (* [-l] / [--local-only] *)
  cli_no_local : bool;         (* [--no-local] *)
  cli_model : option string    (* [--model], one of the choices *)
}.

(** The namespace [args]. *)
Record namespace := Namespace {
  args_url : string;
  args_timestamps : bool;
  args_no_timestamps : bool;
  args_local_only : bool;
  args_no_local : bool;
  args_model : string
}.

(** [parser.parse_args()], from the options found: a [store_true] option
    is true when given and has its default otherwise; the default of
    [--timestamps] is true, that of the other flags is false, that of
    [--model] is ['small']. *)
Definition parse_args (c : cli) : namespace :=
  Namespace (cli_url c)
    (if cli_timestamps c then true else true)
    (if cli_no_timestamps c then true else false)
    (if cli_local_only c then true else false)
    (if cli_no_local c then true else false)
    (default "small" (cli_model c)).

(** How the process ends: its exit status, what it wrote on standard
    error, and the world it leaves. *)
Record ending := Ending {
  exit_status : Z;
  stderr : list string;
  world : World
}.

(** [main()], from the parsed command line on. *)
Definition main (env : collaborators) (c : cli) (w : World) : ending :=
  let args := parse_args c in
  let timestamps :=
    if args_no_timestamps args then false else args_timestamps args in
  let options : gmap string pyval :=
    <["timestamps" := PBool timestamps]>
      (<["local_only" := PBool (args_local_only args)]>
         (<["no_local" := PBool (args_no_local args)]>
            (<["model" := PStr (args_model args)]> ∅))) in
  match get_transcript env (args_url args) options w with
  | (Ret _, w') => Ending 0 [] w'
  | (Raise e, w') => Ending 1 ["Error: " +:+ exn_str e] w'
  end.

(** * Vocabulary of the statements *)

(** The three literals that open a supported URL shape. *)
Definition markers : list string :=
  ["youtube.com/watch?v="; "youtu.be/"; "youtube.com/embed/"].

(** The characters that end an identifier: [&], newline, [?], [#]. *)
Definition is_stop (c : ascii) : bool := Str.mem c id_stops.

Definition id_char (c : ascii) : bool := negb (is_stop c).

Definition not_newline (c : ascii) : bool := negb (Ascii.eqb c Str.newline).

(** The text after an identifier: nothing, or something that starts with
    a stop character. *)
Definition ends_id (tail : string) : bool :=
  match tail with
  | EmptyString => true
  | String c _ => is_stop c
  end.

(** The identifier at the head of [s]: its longest run of identifier
    characters, if that is not empty. *)
Definition id_at (s : string) : option string :=
  match s with
  | String c _ => if id_char c then Some (Str.take_while id_char s) else None
  | EmptyString => None
  end.

(** One alternative of the first pattern, tried at the head of [s]: the
    marker [m], then an identifier. *)
Definition try_marker (m s : string) : option (option string) :=
  match Str.strip_prefix m s with
  | Some s' => option_map Some (id_at s')
  | None => None
  end.

(** A supported shape starts at the head of [s]: a marker, then at least
    one identifier character. *)
Definition shape_at (s : string) : bool :=
  existsb
    (fun m =>
       match Str.strip_prefix m s with
       | Some (String c _) => id_char c
       | _ => false
       end)
    markers.

(** No supported shape starts inside [pre], when [pre] is followed by [s]. *)
Fixpoint no_shape_before (pre s : string) : bool :=
  match pre with
  | EmptyString => true
  | String _ pre' => negb (shape_at (pre +:+ s)) && no_shape_before pre' s
  end.

(** [url] holds a marker followed by an identifier character, anywhere. *)
Definition contains_shape (url : string) : Prop :=
  exists pre m c rest,
    In m markers /\ is_stop c = false /\ url = pre +:+ m +:+ String c rest.

(** [url] holds [youtube.com/watch?], then on the same line [v=] followed
    by an identifier character. *)
Definition contains_watch_v (url : string) : Prop :=
  exists pre mid c rest,
    Str.all not_newline mid = true /\ is_stop c = false /\
    url = pre +:+ "youtube.com/watch?" +:+ mid +:+ "v=" +:+ String c rest.

(** The decimal digit [n], for [0 <= n <= 9]. *)
Definition digit (n : Z) : ascii := ascii_of_nat (48 + Z.to_nat n).

(** A field of exactly two decimal digits, for [0 <= n < 100]. *)
Definition two_digits (n : Z) : string :=
  String (digit (n / 10)) (String (digit (n mod 10)) "").




(** The header line of a rendering, and its separator rule. *)
Definition transcript_header (source : string) : string :=
  if String.eqb source "" then nl +:+ "Transcript" +:+ nl
  else nl +:+ "Transcript (Source: " +:+ source +:+ ")" +:+ nl.

Definition rule : string := Str.repeat "=" 60.

(** Relations between the world before and after a computation that
    every step of the program may be checked against: they hold of no
    change at all, compose, and do not look at the disk or the output. *)
Class FrameRel (R : World -> World -> Prop) : Prop := {
  R_refl : forall w, R w w;
  R_trans : forall a b c, R a b -> R b c -> R a c;
  R_disk_output : forall w f out, R w (mkWorld f out (temp_dir w) (calls w))
}.

Definition respects (R : World -> World -> Prop) {A} (m : M A) : Prop :=
  forall w, R w (m w).2.

(** The methods entered between [w] and [w'] all satisfy [P]. *)
Definition calls_extend (P : call -> Prop) (w w' : World) : Prop :=
  exists tr, calls w' = calls w ++ tr /\ Forall P tr.

Definition keeps_temp_dir (w w' : World) : Prop := temp_dir w' = temp_dir w.

(** The caption fetcher. *)
Definition is_fetch (c : call) : bool :=
  match c with
  | Call_get_youtube_transcript _ => true
  | _ => false
  end.

(** Audio acquisition and local recognition. *)
Definition is_local_step (c : call) : bool :=
  match c with
  | Call_download_audio _ _ | Call_transcribe_audio_local _ _ => true
  | _ => false
  end.

(** The same collaborators, with another caption service. *)
Definition with_captions (env : collaborators)
    (captions : option string -> collab transcript_list) : collaborators :=
  Collaborators captions (ydl_download env) (load_model env) (tmp_root env)
    (mkdtemp_name env).

(** The world in which [get_transcript] turns to the caption fetcher. *)
Definition announced (url : string) (w : World) : World :=
  mkWorld (fs w)
    (stdout w ++ ["Processing video: " +:+ str_optional (extract_video_id url);
                  "🔍 Checking for YouTube transcript..."])
    (temp_dir w) (calls w).

(** ** Sample collaborators *)

Module Sample.

(** A caption service on which captions are disabled. *)
Definition no_captions : option string -> collab transcript_list :=
  fun _ files =>
    (inl (Exn TranscriptsDisabled "Subtitles are disabled for this video"), files).

(** A caption service with one English track of one cue. *)
Definition hello_captions : option string -> collab transcript_list :=
  fun _ files =>
    (inr (TranscriptList
            (fun _ =>
               inr (Transcript
                      (fun f => (inr [Cue (Some "hello") (Some 0%Q) (Some (3 # 2)%Q)], f))))
            ["en"]),
     files).

(** A downloader that writes the audio where the output template says,
    as an [.m4a] file. *)
Definition m4a_downloader (url outtmpl : string) (files : gset string) : download :=
  Download [Downloading; Finished]
    ({[Str.replace "%(ext)s" "m4a" outtmpl]} ∪ files) None.

(** A downloader that leaves a [.webm] and an [.mp3] file. *)
Definition webm_mp3_downloader (url outtmpl : string) (files : gset string)
  : download :=
  Download [Downloading; Finished]
    ({[Str.replace "%(ext)s" "mp3" outtmpl; Str.replace "%(ext)s" "webm" outtmpl]}
       ∪ files) None.


(** A downloader that fails with the given message. *)
Definition failing_downloader (msg : string) (url outtmpl : string)
    (files : gset string) : download :=
  Download [] files (Some (Exn OtherError msg)).

Definition two_segments : list whisper_segment :=
  [WhisperSegment 0 (5 # 2) " Hello there. "; WhisperSegment (5 # 2) 4 " Bye."].

Definition recogniser : pyval -> collab whisper_model :=
  fun _ files =>
    (inr (WhisperModel
            (fun _ f => (inr (WhisperResult (Some "english") two_segments), f))),
     files).

Definition broken_recogniser : pyval -> collab whisper_model :=
  fun _ files => (inl (Exn OtherError "out of memory"), files).

Definition env (captions : option string -> collab transcript_list)
    (downloader : string -> string -> gset string -> download)
    (recog : pyval -> collab whisper_model) : collaborators :=
  Collaborators captions downloader recog "/tmp" (fun _ => "abcd1234").

Definition w0 : World := mkWorld ∅ [] None [].

End Sample.




(** The first of the candidate paths [base ++ ext] that is on disk. *)
Fixpoint first_existing (files : gset string) (base : string) (exts : list string)
  : option string :=
  match exts with
  | [] => None
  | ext :: rest =>
      if bool_decide (base +:+ ext ∈ files) then Some (base +:+ ext)
      else first_existing files base rest
  end.

(** ** Vocabulary of the further properties *)

Definition not_y (c : ascii) : bool := negb (Ascii.eqb c "y").

Definition not_percent (c : ascii) : bool := negb (Ascii.eqb c "%").

(** [v=] and an identifier character stand at the head of [s]. *)
Definition v_here (s : string) : bool :=
  match Str.strip_prefix "v=" s with
  | Some (String d _) => id_char d
  | _ => false
  end.

(** No [v=] followed by an identifier character on what is left of the
    line. *)
Fixpoint no_later_v (s : string) : bool :=
  match s with
  | EmptyString => true
  | String c s' =>
      negb (v_here s) && (if not_newline c then no_later_v s' else true)
  end.

(** Whatever the world, a value that [m] returns satisfies [Q] and an
    exception that it raises satisfies [P]. *)
Definition ensures {A} (Q : A -> Prop) (P : exn -> Prop) (m : M A) : Prop :=
  forall w,
    match (m w).1 with
    | Ret a => Q a
    | Raise e => P e
    end.

Definition anything {A} (_ : A) : Prop := True.

(** A plain [Exception] whose text starts with [p]. *)
Definition plain_with_prefix (p : string) (e : exn) : Prop :=
  exn_cls e = Exception /\ String.prefix p (exn_str e) = true.

(** The failures of the caption fetcher. *)
Definition fetch_error (e : exn) : Prop :=
  plain_with_prefix "No YouTube transcript available: " e \/
  plain_with_prefix "Error fetching transcript: " e.


(** The failures of the orchestrator. *)
Definition terminal_error (e : exn) : Prop :=
  e = Exn Exception "Invalid YouTube URL provided" \/
  plain_with_prefix "No transcript available: " e \/
  plain_with_prefix "Local transcription failed: " e.

(** A cue with the two keys that the conversion reads without a default. *)
Definition cue_ok (c : cue) : Prop := is_Some (cue_text c) /\ is_Some (cue_start c).

(** The segment made from a cue that has them. *)
Definition cue_segment (c : cue) : segment :=
  Segment (cue_text c) (cue_start c) (Some (default 0%Q (cue_duration c))).

(** A segment with all three keys. *)
Definition segment_ok (s : segment) : Prop :=
  is_Some (seg_text s) /\ is_Some (seg_start s) /\ is_Some (seg_duration s).

(** The line printed for a segment, when it can be printed. *)
Definition rendered (show_timestamps : pyval) (seg : segment) : option string :=
  let line timestamp text :=
    if truthy show_timestamps then "[" +:+ timestamp +:+ "] " +:+ text else text in
  match seg_start seg with
  | Some start =>
      match seg_text seg with
      | Some text => Some (line (format_timestamp start) text)
      | None => None
      end
  | None => Some (line (format_timestamp 0) (default "" (seg_text seg)))
  end.

(** The steps of the local path. *)
Definition is_local_call (c : call) : bool :=
  match c with
  | Call_local_transcription _ | Call_download_audio _ _
  | Call_transcribe_audio_local _ _ => true
  | _ => false
  end.

(** Standard output only grows. *)
Definition prints_more (w w' : World) : Prop :=
  exists more, stdout w' = stdout w ++ more.

(** ** More sample collaborators *)

Module Cases.



(** An English track whose second cue has no text. *)
Definition broken_cue : option string -> collab transcript_list :=
  fun _ files =>
    (inr (TranscriptList
            (fun _ =>
               inr (Transcript
                      (fun f =>
                         (inr [Cue (Some "hello") (Some 0%Q) (Some (3 # 2)%Q);
                               Cue None (Some (3 # 2)%Q) None], f))))
            ["en"]),
     files).

(** A recogniser whose model loads and then fails on the audio. *)
Definition deaf_recogniser : pyval -> collab whisper_model :=
  fun _ files =>
    (inr (WhisperModel (fun _ f => (inl (Exn OtherError "cannot decode audio"), f))),
     files).

End Cases.

(** * Properties *)

(** ** Facts about strings *)

Module StrFacts.

Lemma app_cons c s t : String c s +:+ t = String c (s +:+ t).
Proof. reflexivity. Qed.

Lemma app_nil_l s : "" +:+ s = s.
Proof. reflexivity. Qed.

Lemma app_nil_r s : s +:+ "" = s.
Proof. induction s as [|c s IH]; [reflexivity|]. now rewrite app_cons, IH. Qed.

Lemma app_assoc s t u : (s +:+ t) +:+ u = s +:+ t +:+ u.
Proof. induction s as [|c s IH]; [reflexivity|]. now rewrite !app_cons, IH. Qed.

Lemma length_app s t :
  String.length (s +:+ t) = (String.length s + String.length t)%nat.
Proof.
  induction s as [|c s IH]; [reflexivity|].
  rewrite app_cons. simpl. now rewrite IH.
Qed.

Lemma strip_prefix_app p s : Str.strip_prefix p (p +:+ s) = Some s.
Proof.
  induction p as [|c p IH]; [now destruct s|].
  rewrite app_cons. simpl. now rewrite Ascii.eqb_refl.
Qed.

Lemma strip_prefix_Some p : forall s r,
  Str.strip_prefix p s = Some r -> s = p +:+ r.
Proof.
  induction p as [|c p IH]; intros s r H.
  - destruct s; simpl in H; now inversion H.
  - destruct s as [|b s]; [discriminate|]. simpl in H.
    destruct (Ascii.eqb_spec c b) as [->|]; [|discriminate].
    rewrite app_cons. f_equal. now apply IH.
Qed.

(** Two literals that part ways before either ends: what follows the
    second cannot repair the first. *)
Lemma strip_prefix_diverge p : forall q s,
  Str.strip_prefix p q = None -> Str.strip_prefix q p = None ->
  Str.strip_prefix p (q +:+ s) = None.
Proof.
  induction p as [|c p IH]; intros q s Hpq Hqp.
  - destruct q; discriminate.
  - destruct q as [|b q]; [discriminate|].
    rewrite app_cons. simpl in *.
    rewrite (Ascii.eqb_sym b c) in Hqp.
    destruct (Ascii.eqb c b); [now apply IH | reflexivity].
Qed.

Lemma take_drop f s : Str.take_while f s +:+ Str.drop_while f s = s.
Proof.
  induction s as [|c s IH]; [reflexivity|]. simpl.
  destruct (f c); [|reflexivity]. now rewrite app_cons, IH.
Qed.

Lemma all_take_while f s : Str.all f (Str.take_while f s) = true.
Proof.
  induction s as [|c s IH]; [reflexivity|]. simpl.
  destruct (f c) eqn:E; [|reflexivity]. simpl. now rewrite E.
Qed.

Lemma length_drop_while f s :
  (String.length (Str.drop_while f s) <= String.length s)%nat.
Proof.
  induction s as [|c s IH]; [reflexivity|]. simpl.
  destruct (f c); simpl; lia.
Qed.

(** A run of [f]-characters followed by the end or by a character that
    fails [f] is exactly what [take_while] takes. *)
Lemma take_while_app f s t :
  Str.all f s = true ->
  match t with String c _ => f c = false | EmptyString => True end ->
  Str.take_while f (s +:+ t) = s /\ Str.drop_while f (s +:+ t) = t.
Proof.
  intros Hs Ht. induction s as [|c s IH].
  - rewrite app_nil_l. destruct t as [|c t]; [now split|].
    simpl. now rewrite Ht.
  - simpl in Hs. apply andb_prop in Hs as [Hc Hs].
    rewrite app_cons. simpl. rewrite Hc.
    destruct (IH Hs) as [-> ->]. now split.
Qed.









End StrFacts.

(** ** The matcher *)

Module ReFacts.
Import StrFacts.

(** When the continuation never fails, the greedy star keeps its
    longest run. *)
Lemma star_greedy cl k :
  (forall s, k s <> None) ->
  forall s, Re.star cl s k = k (Str.drop_while (Re.cmatch cl) s).
Proof.
  intros Hk. induction s as [|c s IH]; [reflexivity|]. simpl.
  destruct (Re.cmatch cl c); [|reflexivity].
  rewrite IH. destruct (k (Str.drop_while (Re.cmatch cl) s)) eqn:E;
    [reflexivity | now apply Hk in E].
Qed.

(** Whatever the star returns comes from the continuation, run after
    some run of matching characters. *)
Lemma star_sound cl k : forall s m,
  Re.star cl s k = Some m ->
  exists s1 s2, s = s1 +:+ s2 /\ Str.all (Re.cmatch cl) s1 = true /\ k s2 = Some m.
Proof.
  induction s as [|c s IH]; intros m H.
  - exists "", "". now repeat split.
  - simpl in H. destruct (Re.cmatch cl c) eqn:Hc.
    + destruct (Re.star cl s k) as [m'|] eqn:Hs.
      * inversion H; subst m'. destruct (IH m eq_refl) as (s1 & s2 & -> & Hall & Hk).
        exists (String c s1), s2. repeat split; [|assumption].
        simpl. now rewrite Hc.
      * exists "", (String c s). now repeat split.
    + exists "", (String c s). now repeat split.
Qed.

(** If the continuation succeeds after some run of matching
    characters, the star succeeds. *)
Lemma star_complete cl k : forall s1 s2,
  Str.all (Re.cmatch cl) s1 = true -> k s2 <> None ->
  Re.star cl (s1 +:+ s2) k <> None.
Proof.
  induction s1 as [|c s1 IH]; intros s2 Hall Hk.
  - rewrite app_nil_l. destruct s2 as [|c s2]; [assumption|]. simpl.
    destruct (Re.cmatch cl c); [|assumption].
    destruct (Re.star cl s2 k); [discriminate | assumption].
  - simpl in Hall. apply andb_prop in Hall as [Hc Hall].
    rewrite app_cons. simpl. rewrite Hc.
    specialize (IH s2 Hall Hk).
    destruct (Re.star cl (s1 +:+ s2) k); [discriminate | contradiction].
Qed.

Lemma consumed_drop_while f s :
  Re.consumed s (Str.drop_while f s) = Str.take_while f s.
Proof.
  unfold Re.consumed. induction s as [|c s IH]; [reflexivity|]. simpl.
  destruct (f c) eqn:E.
  - pose proof (length_drop_while f s) as Hl.
    replace (S (String.length s) - String.length (Str.drop_while f s))%nat
      with (S (String.length s - String.length (Str.drop_while f s))) by lia.
    simpl. now rewrite IH.
  - simpl. now rewrite Nat.sub_diag.
Qed.

Lemma search_hit r s m : Re.match_here r s = Some m -> Re.search r s = Some m.
Proof. intros H. destruct s; simpl; now rewrite H. Qed.

Lemma search_sound r : forall s m,
  Re.search r s = Some m ->
  exists pre t, s = pre +:+ t /\ Re.match_here r t = Some m.
Proof.
  induction s as [|c s IH]; intros m H; simpl in H.
  - destruct (Re.match_here r "") eqn:E; [|discriminate].
    inversion H; subst. now exists "", "".
  - destruct (Re.match_here r (String c s)) eqn:E.
    + inversion H; subst. now exists "", (String c s).
    + destruct (IH m H) as (pre & t & -> & Ht).
      now exists (String c pre), t.
Qed.

Lemma search_complete r : forall pre t,
  Re.match_here r t <> None -> Re.search r (pre +:+ t) <> None.
Proof.
  induction pre as [|c pre IH]; intros t H.
  - rewrite app_nil_l. destruct t; simpl;
      destruct (Re.match_here r _); [discriminate|contradiction|discriminate|contradiction].
  - rewrite app_cons. simpl.
    destruct (Re.match_here r (String c (pre +:+ t))); [discriminate|].
    now apply IH.
Qed.

End ReFacts.

(** ** The two patterns *)

Module PatternFacts.
Import StrFacts ReFacts.

Lemma id_at_app id tail :
  id <> "" -> Str.all id_char id = true -> ends_id tail = true ->
  id_at (id +:+ tail) = Some id.
Proof.
  intros Hne Hall Hend.
  assert (Ht : match tail with
               | String c _ => id_char c = false
               | EmptyString => True
               end).
  { destruct tail as [|c t]; [exact I|]. unfold id_char. simpl in Hend.
    now rewrite Hend. }
  destruct (take_while_app id_char id tail Hall Ht) as [Htake _].
  destruct id as [|c id]; [contradiction|].
  rewrite app_cons in *. unfold id_at.
  simpl in Hall. apply andb_prop in Hall as [-> _]. now rewrite Htake.
Qed.

Lemma ends_id_drop_while s : ends_id (Str.drop_while id_char s) = true.
Proof.
  induction s as [|c s IH]; [reflexivity|]. simpl.
  destruct (id_char c) eqn:E; [assumption|]. simpl.
  unfold id_char in E. now destruct (is_stop c).
Qed.

Lemma id_at_Some s i :
  id_at s = Some i ->
  exists c rest tail,
    s = String c rest /\ is_stop c = false /\ s = i +:+ tail /\
    i <> "" /\ Str.all id_char i = true /\ ends_id tail = true.
Proof.
  destruct s as [|c rest]; [discriminate|]. unfold id_at.
  destruct (id_char c) eqn:Hc; [|discriminate]. intros [= <-].
  exists c, rest, (Str.drop_while id_char (String c rest)).
  repeat split.
  - unfold id_char in Hc. now destruct (is_stop c).
  - exact (eq_sym (take_drop id_char (String c rest))).
  - rewrite Hc. discriminate.
  - exact (all_take_while id_char (String c rest)).
  - exact (ends_id_drop_while (String c rest)).
Qed.

(** The capturing group [([^&\n?#]+)] at the end of both patterns. *)
Lemma plus_group s :
  Re.plus (Re.NoneOf id_stops) s (fun s' => Some (Some (Re.consumed s s')))
  = option_map Some (id_at s).
Proof.
  destruct s as [|c s]; [reflexivity|].
  unfold Re.plus, id_at.
  change (Re.cmatch (Re.NoneOf id_stops)) with id_char.
  destruct (id_char c) eqn:Hc; [|reflexivity].
  rewrite star_greedy by discriminate.
  pose proof (consumed_drop_while id_char (String c s)) as H.
  simpl in H. rewrite Hc in H.
  change (Re.cmatch (Re.NoneOf id_stops)) with id_char.
  rewrite H. simpl. now rewrite Hc.
Qed.

Lemma match_here_pattern1 s :
  Re.match_here pattern1 s =
  match try_marker "youtube.com/watch?v=" s with
  | Some m => Some m
  | None =>
      match try_marker "youtu.be/" s with
      | Some m => Some m
      | None => try_marker "youtube.com/embed/" s
      end
  end.
Proof.
  unfold Re.match_here, pattern1, try_marker. cbn [Re.run].
  destruct (Str.strip_prefix "youtube.com/watch?v=" s);
    destruct (Str.strip_prefix "youtu.be/" s);
    destruct (Str.strip_prefix "youtube.com/embed/" s);
    now rewrite ?plus_group.
Qed.

Lemma try_marker_app m rest : try_marker m (m +:+ rest) = option_map Some (id_at rest).
Proof. unfold try_marker. now rewrite strip_prefix_app. Qed.

Lemma try_marker_Some m s x :
  try_marker m s = Some x ->
  exists rest i, s = m +:+ rest /\ id_at rest = Some i /\ x = Some i.
Proof.
  unfold try_marker.
  destruct (Str.strip_prefix m s) as [rest|] eqn:E; [|discriminate].
  destruct (id_at rest) as [i|] eqn:Hi; [|discriminate].
  intros [= <-]. apply strip_prefix_Some in E. now exists rest, i.
Qed.

Lemma try_marker_diverge m m' rest :
  Str.strip_prefix m m' = None -> Str.strip_prefix m' m = None ->
  try_marker m (m' +:+ rest) = None.
Proof.
  intros H1 H2. unfold try_marker. now rewrite strip_prefix_diverge.
Qed.

Lemma match_here_pattern1_marker m rest i :
  In m markers -> id_at rest = Some i ->
  Re.match_here pattern1 (m +:+ rest) = Some (Some i).
Proof.
  intros Hm Hi. rewrite match_here_pattern1.
  destruct Hm as [<-|[<-|[<-|[]]]];
    rewrite ?(try_marker_diverge "youtube.com/watch?v=" "youtu.be/"),
            ?(try_marker_diverge "youtube.com/watch?v=" "youtube.com/embed/"),
            ?(try_marker_diverge "youtu.be/" "youtube.com/embed/") by reflexivity;
    now rewrite try_marker_app, Hi.
Qed.

Lemma match_here_pattern1_Some s m :
  Re.match_here pattern1 s = Some m ->
  exists mk rest i,
    In mk markers /\ s = mk +:+ rest /\ id_at rest = Some i /\ m = Some i.
Proof.
  rewrite match_here_pattern1. intros H.
  assert (exists mk, In mk markers /\ try_marker mk s = Some m) as (mk & Hmk & E).
  { unfold markers.
    destruct (try_marker "youtube.com/watch?v=" s) eqn:E1;
      [|destruct (try_marker "youtu.be/" s) eqn:E2];
      [injection H as <-; exists "youtube.com/watch?v="
      |injection H as <-; exists "youtu.be/"
      |exists "youtube.com/embed/"];
      (split; [simpl; tauto | assumption]). }
  apply try_marker_Some in E as (rest & i & -> & Hi & ->).
  now exists mk, rest, i.
Qed.

Lemma shape_at_id_at m s rest :
  In m markers -> Str.strip_prefix m s = Some rest -> shape_at s = false ->
  id_at rest = None.
Proof.
  intros Hm Hs Hsh. unfold shape_at in Hsh.
  destruct rest as [|c rest]; [reflexivity|]. unfold id_at.
  destruct (id_char c) eqn:Hc; [|reflexivity].
  assert (existsb
            (fun m => match Str.strip_prefix m s with
                      | Some (String c _) => id_char c
                      | _ => false
                      end) markers = true) as Hex.
  { apply existsb_exists. exists m. split; [assumption|]. now rewrite Hs. }
  congruence.
Qed.

Lemma match_here_pattern1_None s :
  shape_at s = false -> Re.match_here pattern1 s = None.
Proof.
  intros Hsh. rewrite match_here_pattern1.
  assert (Hm : forall m, In m markers -> try_marker m s = None).
  { intros m Hm. unfold try_marker.
    destruct (Str.strip_prefix m s) as [s'|] eqn:E; [|reflexivity].
    now rewrite (shape_at_id_at _ _ _ Hm E Hsh). }
  rewrite !Hm by (simpl; tauto). reflexivity.
Qed.

Lemma search_skip pre s :
  no_shape_before pre s = true ->
  Re.search pattern1 (pre +:+ s) = Re.search pattern1 s.
Proof.
  induction pre as [|c pre IH]; intros H; [reflexivity|].
  simpl in H. apply andb_prop in H as [Hc Hpre].
  apply negb_true_iff in Hc. rewrite app_cons in *.
  simpl. rewrite (match_here_pattern1_None _ Hc). now apply IH.
Qed.

Lemma star_ext cl k1 k2 :
  (forall s, k1 s = k2 s) -> forall s, Re.star cl s k1 = Re.star cl s k2.
Proof.
  intros Hk. induction s as [|c s IH]; simpl; [apply Hk|].
  now rewrite IH, Hk.
Qed.

Lemma match_here_pattern2 s :
  Re.match_here pattern2 s =
  match Str.strip_prefix "youtube.com/watch?" s with
  | Some s' =>
      Re.star Re.Dot s'
        (fun s'' =>
           match Str.strip_prefix "v=" s'' with
           | Some s3 => option_map Some (id_at s3)
           | None => None
           end)
  | None => None
  end.
Proof.
  unfold Re.match_here, pattern2. cbn [Re.run].
  destruct (Str.strip_prefix "youtube.com/watch?" s) as [s'|]; [|reflexivity].
  apply star_ext. intros s''.
  destruct (Str.strip_prefix "v=" s''); [apply plus_group | reflexivity].
Qed.

Lemma match_here_pattern2_Some s m :
  Re.match_here pattern2 s = Some m ->
  exists mid rest i,
    s = "youtube.com/watch?" +:+ mid +:+ "v=" +:+ rest /\
    Str.all not_newline mid = true /\ id_at rest = Some i /\ m = Some i.
Proof.
  rewrite match_here_pattern2.
  destruct (Str.strip_prefix "youtube.com/watch?" s) as [s'|] eqn:E; [|discriminate].
  intros H. apply star_sound in H as (mid & s2 & -> & Hall & Hk).
  destruct (Str.strip_prefix "v=" s2) as [rest|] eqn:E2; [|discriminate].
  destruct (id_at rest) as [i|] eqn:Hi; [|discriminate].
  apply strip_prefix_Some in E, E2. subst s s2.
  exists mid, rest, i. repeat split; try assumption.
  simpl in Hk. congruence.
Qed.

Lemma match_here_pattern2_shape mid rest i :
  Str.all not_newline mid = true -> id_at rest = Some i ->
  Re.match_here pattern2 ("youtube.com/watch?" +:+ mid +:+ "v=" +:+ rest) <> None.
Proof.
  intros Hall Hi. rewrite match_here_pattern2, strip_prefix_app.
  apply star_complete; [assumption|].
  now rewrite strip_prefix_app, Hi.
Qed.

Lemma id_at_cons c rest :
  is_stop c = false -> exists i, id_at (String c rest) = Some i.
Proof.
  intros Hc. unfold id_at, id_char. rewrite Hc. simpl. eauto.
Qed.

(** A successful search for the first pattern, read back. *)
Lemma search_pattern1_Some url m :
  Re.search pattern1 url = Some m ->
  exists pre mk i tail,
    m = Some i /\ In mk markers /\ i <> "" /\ Str.all id_char i = true /\
    ends_id tail = true /\ url = pre +:+ mk +:+ i +:+ tail /\
    exists c rest, is_stop c = false /\ i +:+ tail = String c rest.
Proof.
  intros H. apply search_sound in H as (pre & t & -> & H).
  apply match_here_pattern1_Some in H as (mk & rest & i & Hmk & -> & Hi & ->).
  apply id_at_Some in Hi as (c & r & tail & Hr & Hc & Hr' & Hne & Hall & Hend).
  exists pre, mk, i, tail. repeat split; try assumption.
  - now rewrite <- Hr'.
  - exists c, r. split; [assumption|]. now rewrite <- Hr'.
Qed.

Lemma search_pattern2_Some url m :
  Re.search pattern2 url = Some m ->
  (exists i, m = Some i) /\ contains_watch_v url.
Proof.
  intros H. apply search_sound in H as (pre & t & -> & H).
  apply match_here_pattern2_Some in H as (mid & rest & i & -> & Hall & Hi & ->).
  split; [eauto|].
  apply id_at_Some in Hi as (c & r & _ & -> & Hc & _).
  now exists pre, mid, c, r.
Qed.

Lemma shape_at_true s :
  shape_at s = true ->
  exists m c rest, In m markers /\ is_stop c = false /\ s = m +:+ String c rest.
Proof.
  unfold shape_at. intros H. apply existsb_exists in H as (m & Hm & H).
  destruct (Str.strip_prefix m s) as [[|c rest]|] eqn:E; try discriminate.
  apply strip_prefix_Some in E. exists m, c, rest.
  repeat split; try assumption. unfold id_char in H. now destruct (is_stop c).
Qed.

Lemma shape_at_match s :
  shape_at s = true -> Re.match_here pattern1 s <> None.
Proof.
  intros H. apply shape_at_true in H as (m & c & rest & Hm & Hc & ->).
  destruct (id_at_cons c rest Hc) as [i Hi].
  now rewrite (match_here_pattern1_marker m _ i Hm Hi).
Qed.

(** The match that [search] returns for the first pattern is the
    leftmost shape of the string. *)
Lemma search_pattern1_leftmost : forall url m,
  Re.search pattern1 url = Some m ->
  exists pre t,
    url = pre +:+ t /\ Re.match_here pattern1 t = Some m /\
    no_shape_before pre t = true.
Proof.
  induction url as [|c url IH]; intros m H.
  - discriminate H.
  - simpl in H. destruct (Re.match_here pattern1 (String c url)) eqn:E.
    + inversion H; subst. now exists "", (String c url).
    + destruct (IH m H) as (pre & t & -> & Ht & Hpre).
      exists (String c pre), t. repeat split; try assumption.
      simpl. rewrite Hpre, andb_true_r. apply negb_true_iff.
      destruct (shape_at (String c pre +:+ t)) eqn:Hs; [|reflexivity].
      apply shape_at_match in Hs. rewrite app_cons in Hs. contradiction.
Qed.

Lemma contains_shape_search url :
  contains_shape url <-> Re.search pattern1 url <> None.
Proof.
  split.
  - intros (pre & m & c & rest & Hm & Hc & ->).
    apply search_complete.
    destruct (id_at_cons c rest Hc) as [i Hi].
    now rewrite (match_here_pattern1_marker m _ i Hm Hi).
  - destruct (Re.search pattern1 url) as [m|] eqn:E; [intros _|contradiction].
    apply search_pattern1_Some in E
      as (pre & mk & i & tail & _ & Hmk & _ & _ & _ & -> & c & rest & Hc & ->).
    now exists pre, mk, c, rest.
Qed.

Lemma contains_watch_v_search url :
  contains_watch_v url <-> Re.search pattern2 url <> None.
Proof.
  split.
  - intros (pre & mid & c & rest & Hall & Hc & ->).
    apply search_complete.
    destruct (id_at_cons c rest Hc) as [i Hi].
    now apply (match_here_pattern2_shape mid _ i).
  - destruct (Re.search pattern2 url) as [m|] eqn:E; [intros _|contradiction].
    now apply search_pattern2_Some in E.
Qed.

End PatternFacts.

(** C4. A URL made of a prefix that holds no earlier shape, one of the
    three markers ([youtube.com/watch?v=], [youtu.be/],
    [youtube.com/embed/]), a non-empty identifier without [&], newline,
    [?] or [#], and then nothing or one of these four characters, yields
    exactly that identifier; a string that holds neither a marker followed
    by an identifier character nor [youtube.com/watch?] followed on the
    same line by [v=] and an identifier character yields no identifier. *)
Theorem extract_video_id_supported_shape :
  (forall pre m id tail,
      In m markers -> id <> "" -> Str.all id_char id = true ->
      ends_id tail = true ->
      no_shape_before pre (m +:+ id +:+ tail) = true ->
      extract_video_id (pre +:+ m +:+ id +:+ tail) = Some id) /\
  (forall url,
      ~ contains_shape url -> ~ contains_watch_v url ->
      extract_video_id url = None).
Proof.
  split.
  - intros pre m id tail Hm Hne Hall Hend Hpre.
    unfold extract_video_id, patterns, first_match.
    rewrite (PatternFacts.search_skip _ _ Hpre).
    rewrite (ReFacts.search_hit _ _ (Some id)); [reflexivity|].
    apply PatternFacts.match_here_pattern1_marker; [assumption|].
    now apply PatternFacts.id_at_app.
  - intros url H1 H2.
    unfold extract_video_id, patterns, first_match.
    rewrite PatternFacts.contains_shape_search in H1.
    rewrite PatternFacts.contains_watch_v_search in H2.
    destruct (Re.search pattern1 url); [now destruct H1|].
    destruct (Re.search pattern2 url); [now destruct H2|reflexivity].
Qed.

Lemma extract_video_id_supported_shape_witness :
  extract_video_id
    ("https://www." +:+ "youtube.com/watch?v=" +:+ "dQw4w9WgXcQ" +:+ "&t=42")
  = Some "dQw4w9WgXcQ" /\
  extract_video_id ("https://" +:+ "youtu.be/" +:+ "dQw4w9WgXcQ" +:+ "?t=42")
  = Some "dQw4w9WgXcQ" /\
  extract_video_id
    ("https://www." +:+ "youtube.com/embed/" +:+ "dQw4w9WgXcQ" +:+ "#top")
  = Some "dQw4w9WgXcQ" /\
  extract_video_id "https://example.com/watch?v=dQw4w9WgXcQ" = None.
Proof.
  split; [|split; [|split]].
  - apply (proj1 extract_video_id_supported_shape);
      [simpl; tauto | discriminate | reflexivity | reflexivity | reflexivity].
  - apply (proj1 extract_video_id_supported_shape);
      [simpl; tauto | discriminate | reflexivity | reflexivity | reflexivity].
  - apply (proj1 extract_video_id_supported_shape);
      [simpl; tauto | discriminate | reflexivity | reflexivity | reflexivity].
  - apply (proj2 extract_video_id_supported_shape).
    + intros H. apply PatternFacts.contains_shape_search in H. now apply H.
    + intros H. apply PatternFacts.contains_watch_v_search in H. now apply H.
Defined.

(** C10. Extraction searches the whole string: whenever a marker followed
    by an identifier character occurs anywhere, the string is accepted and
    the identifier returned is the one of the leftmost such occurrence;
    and whenever [youtube.com/watch?] is followed, on the same line, by
    [v=] and an identifier character, the string is accepted too, so [v]
    need not be the first query parameter. *)
Theorem extraction_is_unanchored_search :
  (forall url,
      contains_shape url ->
      is_valid_youtube_url url = true /\
      exists pre m id tail,
        In m markers /\ id <> "" /\ Str.all id_char id = true /\
        ends_id tail = true /\ url = pre +:+ m +:+ id +:+ tail /\
        no_shape_before pre (m +:+ id +:+ tail) = true /\
        extract_video_id url = Some id) /\
  (forall url, contains_watch_v url -> is_valid_youtube_url url = true) /\
  extract_video_id "https://www.youtube.com/watch?feature=share&v=abc123"
  = Some "abc123".
Proof.
  split; [|split; [|reflexivity]].
  - intros url H. apply PatternFacts.contains_shape_search in H.
    destruct (Re.search pattern1 url) as [m|] eqn:E; [clear H|contradiction].
    destruct (PatternFacts.search_pattern1_leftmost _ _ E)
      as (pre & t & Hurl & Ht & Hpre).
    apply PatternFacts.match_here_pattern1_Some in Ht
      as (mk & rest & i & Hmk & -> & Hi & ->).
    apply PatternFacts.id_at_Some in Hi
      as (_ & _ & tail & _ & _ & -> & Hne & Hall & Hend).
    assert (Hx : extract_video_id url = Some i).
    { unfold extract_video_id, patterns, first_match. now rewrite E. }
    split; [unfold is_valid_youtube_url; now rewrite Hx|].
    now exists pre, mk, i, tail.
  - intros url H. apply PatternFacts.contains_watch_v_search in H.
    unfold is_valid_youtube_url, extract_video_id, patterns, first_match.
    destruct (Re.search pattern1 url) as [m|] eqn:E1.
    + apply PatternFacts.search_pattern1_Some in E1
        as (_ & _ & i & _ & -> & _). reflexivity.
    + destruct (Re.search pattern2 url) as [m|] eqn:E2; [|contradiction].
      apply PatternFacts.search_pattern2_Some in E2 as [[i ->] _]. reflexivity.
Qed.

Lemma extraction_is_unanchored_search_witness :
  is_valid_youtube_url "my talk is at youtu.be/abc123?t=1, enjoy" = true /\
  is_valid_youtube_url "https://www.youtube.com/watch?list=PL1&v=abc123" = true.
Proof.
  split.
  - apply (proj1 extraction_is_unanchored_search).
    exists "my talk is at ", "youtu.be/", "a"%char, "bc123?t=1, enjoy".
    split; [simpl; tauto | split; reflexivity].
  - apply (proj1 (proj2 extraction_is_unanchored_search)).
    exists "https://www.", "list=PL1&", "a"%char, "bc123".
    split; [reflexivity | split; reflexivity].
Defined.

(** ** Seconds *)

Module NumFacts.
Local Open Scope Q_scope.

Lemma int_inject z : Num.int (inject_Z z) = z.
Proof. unfold Num.int. simpl. apply Z.quot_1_r. Qed.

Lemma int_floor x : 0 <= x -> Num.int x = Qfloor x.
Proof.
  destruct x as [n d]. unfold Qle, Num.int, Qfloor. simpl. intros H.
  apply Z.quot_div_nonneg; lia.
Qed.

Lemma floor_unique x z :
  inject_Z z <= x -> x < inject_Z (z + 1) -> Qfloor x = z.
Proof.
  intros Hlo Hhi.
  pose proof (Qfloor_le x) as H1. pose proof (Qlt_floor x) as H2.
  assert (inject_Z z < inject_Z (Qfloor x + 1)) as A by lra.
  assert (inject_Z (Qfloor x) < inject_Z (z + 1)) as B by lra.
  rewrite <- Zlt_Qlt in A, B. lia.
Qed.

(** Floor division by a positive integer acts on the integer part. *)
Lemma floor_div x (p : positive) :
  Qfloor (x / inject_Z (Zpos p)) = (Qfloor x / Zpos p)%Z.
Proof.
  destruct x as [n d]. unfold Qdiv, Qinv, Qmult, Qfloor, inject_Z. simpl.
  rewrite Z.mul_1_r, Pos2Z.inj_mul. symmetry. apply Z.div_div; lia.
Qed.

Lemma floor_mod x (p : positive) :
  Qfloor (Num.mod_ x (inject_Z (Zpos p))) = (Qfloor x mod Zpos p)%Z /\
  0 <= Num.mod_ x (inject_Z (Zpos p)).
Proof.
  unfold Num.mod_, Num.floordiv. rewrite floor_div.
  set (t := Qfloor x).
  pose proof (Qfloor_le x) as H1. pose proof (Qlt_floor x) as H2. fold t in H1, H2.
  pose proof (Z.div_mod t (Zpos p) ltac:(lia)) as Hdm.
  pose proof (Z.mod_pos_bound t (Zpos p) ltac:(lia)) as Hb.
  set (k := (t / Zpos p)%Z) in *. set (r := (t mod Zpos p)%Z) in *.
  assert (E : inject_Z t == inject_Z (Zpos p) * inject_Z k + inject_Z r).
  { rewrite Hdm at 1. now rewrite inject_Z_plus, inject_Z_mult. }
  assert (R0 : 0 <= inject_Z r) by (change 0 with (inject_Z 0); rewrite <- Zle_Qle; lia).
  rewrite inject_Z_plus in H2.
  split.
  - apply floor_unique; [|rewrite inject_Z_plus]; lra.
  - lra.
Qed.

(** The three fields, in terms of the whole seconds [Qfloor seconds]. *)
Lemma fields seconds :
  let t := Qfloor seconds in
  Num.int (Num.floordiv seconds 3600) = (t / 3600)%Z /\
  Num.int (Num.floordiv (Num.mod_ seconds 3600) 60) = (t mod 3600 / 60)%Z /\
  Num.int (Num.mod_ seconds 60) = (t mod 60)%Z.
Proof.
  intros t. unfold Num.floordiv at 1 2. rewrite !int_inject.
  change 3600 with (inject_Z (Zpos 3600)). change 60 with (inject_Z (Zpos 60)).
  rewrite !floor_div.
  destruct (floor_mod seconds 3600) as [-> _].
  destruct (floor_mod seconds 60) as [E H].
  rewrite (int_floor _ H), E. now repeat split.
Qed.




(** [{n:02d}] is a field of two digits exactly when [0 <= n < 100]. *)
Lemma fmt_02d_two_digits n :
  (0 <= n < 100)%Z -> Num.fmt_02d n = two_digits n.
Proof.
  intros H.
  assert (forallb
            (fun k => String.eqb (Num.fmt_02d (Z.of_nat k)) (two_digits (Z.of_nat k)))
            (seq 0 100) = true) as A by (vm_compute; reflexivity).
  rewrite forallb_forall in A.
  specialize (A (Z.to_nat n)). rewrite Z2Nat.id in A by lia.
  apply String.eqb_eq, A, in_seq. lia.
Qed.

Lemma format_timestamp_fields seconds :
  let t := Qfloor seconds in
  format_timestamp seconds =
  if (t / 3600 >? 0)%Z then
    Num.fmt_02d (t / 3600) +:+ ":" +:+ Num.fmt_02d (t mod 3600 / 60)
      +:+ ":" +:+ Num.fmt_02d (t mod 60)
  else Num.fmt_02d (t mod 3600 / 60) +:+ ":" +:+ Num.fmt_02d (t mod 60).
Proof.
  intros t. unfold format_timestamp.
  destruct (fields seconds) as (-> & -> & ->). reflexivity.
Qed.

End NumFacts.




(** ** Frames: what a method leaves alone *)

Create HintDb frame.

Module Frame.

Section Steps.
Context (R : World -> World -> Prop) `{!FrameRel R}.

Lemma respects_ret {A} (a : A) : respects R (ret a).
Proof. intros w. apply R_refl. Qed.

Lemma respects_mret {A} (a : A) : respects R (mret a).
Proof. intros w. apply R_refl. Qed.

Lemma respects_raise {A} e : respects R (@raise A e).
Proof. intros w. apply R_refl. Qed.

Lemma respects_bind {A B} (m : M A) (k : A -> M B) :
  respects R m -> (forall a, respects R (k a)) -> respects R (m ≫= k).
Proof.
  intros Hm Hk w. unfold mbind, M_bind, bind.
  specialize (Hm w). destruct (m w) as [[a|e] w']; simpl in *; [|assumption].
  eapply R_trans; [eassumption | apply Hk].
Qed.

Lemma respects_try_except {A} (m : M A) h :
  respects R m -> (forall e, respects R (h e)) -> respects R (try_except m h).
Proof.
  intros Hm Hh w. unfold try_except.
  specialize (Hm w). destruct (m w) as [[a|e] w']; simpl in *; [assumption|].
  eapply R_trans; [eassumption | apply Hh].
Qed.

Lemma respects_try_finally {A} (m : M A) c :
  respects R m -> respects R c -> respects R (try_finally m c).
Proof.
  intros Hm Hc w. unfold try_finally.
  specialize (Hm w). destruct (m w) as [r w']. specialize (Hc w').
  destruct (c w') as [[u|e] w'']; simpl in *; eapply R_trans; eassumption.
Qed.

Lemma respects_print l : respects R (print l).
Proof. intros w. apply R_disk_output. Qed.

Lemma respects_extern {A} (c : collab A) : respects R (extern c).
Proof.
  intros w. unfold extern. destruct (c (fs w)) as [[e|a] f]; apply R_disk_output.
Qed.

Lemma respects_lift {A} (x : exn + A) : respects R (lift x).
Proof. destruct x; intros w; apply R_refl. Qed.

Lemma respects_exists p : respects R (Path.exists_ p).
Proof. intros w. apply R_refl. Qed.

Lemma respects_rmtree d : respects R (Path.rmtree d).
Proof. intros w. apply R_disk_output. Qed.

Lemma respects_get_temp_dir : respects R get_temp_dir.
Proof. intros w. apply R_refl. Qed.

Lemma respects_mkdtemp env : respects R (mkdtemp env).
Proof. intros w. apply R_disk_output. Qed.

End Steps.

#[export] Hint Resolve respects_ret respects_mret respects_raise respects_print
  respects_extern respects_lift respects_exists respects_rmtree
  respects_get_temp_dir respects_mkdtemp : frame.

(** Walk down a computation, one construct at a time. *)
Ltac frame :=
  repeat first
    [ solve [auto with frame]
    | match goal with
      | |- respects ?R (mbind _ _) => apply (respects_bind R); [|intros ?]
      | |- respects ?R (try_except _ _) => apply (respects_try_except R); [|intros ?]
      | |- respects ?R (try_finally _ _) => apply (respects_try_finally R)
      | |- respects _ (match ?x with _ => _ end) => destruct x
      | |- respects _ (if ?x then _ else _) => destruct x
      end ].

Section Methods.
Context (R : World -> World -> Prop) `{!FrameRel R}.
Variable env : collaborators.

Lemma respects_convert_cues items :
  forall acc, respects R (convert_cues items acc).
Proof.
  induction items as [|item items IH]; intros acc; simpl; [frame|].
  unfold convert_cue. frame.
Qed.

Lemma respects_get_youtube_transcript v :
  respects R (enter (Call_get_youtube_transcript v)) ->
  respects R (get_youtube_transcript env v).
Proof.
  intros He. pose proof respects_convert_cues.
  unfold get_youtube_transcript. frame.
Qed.

Lemma respects_run_hooks ds : respects R (run_hooks ds).
Proof.
  induction ds as [|d ds IH]; simpl; [frame|].
  unfold progress_hook. frame.
Qed.

Lemma respects_ydl_run url outtmpl : respects R (ydl_run env url outtmpl).
Proof.
  intros w. unfold ydl_run.
  eapply R_trans;
    [apply (R_disk_output w (dl_fs (ydl_download env url outtmpl (fs w))) (stdout w))|].
  match goal with
  | |- R ?w1 (?m ?w1).2 => assert (respects R m) as H; [|apply H]
  end.
  pose proof respects_run_hooks. frame.
Qed.

Lemma respects_probe base exts : respects R (probe base exts).
Proof. induction exts as [|e exts IH]; simpl; frame. Qed.

Lemma respects_download_audio url out :
  respects R (enter (Call_download_audio url out)) ->
  respects R (download_audio env url out).
Proof.
  intros He. pose proof respects_ydl_run. pose proof respects_probe.
  unfold download_audio. frame.
Qed.

Lemma respects_transcribe_audio_local path size :
  respects R (enter (Call_transcribe_audio_local path size)) ->
  respects R (transcribe_audio_local env path size).
Proof. intros He. unfold transcribe_audio_local. frame. Qed.

Lemma respects_cleanup : respects R cleanup.
Proof. unfold cleanup. frame. Qed.

Lemma respects_print_segments show segments :
  respects R (print_segments show segments).
Proof.
  induction segments as [|seg segments IH]; simpl; [frame|].
  unfold print_segment. frame.
Qed.

Lemma respects_print_transcript segments show source :
  respects R (enter (Call_print_transcript source)) ->
  respects R (print_transcript segments show source).
Proof.
  intros He. pose proof respects_print_segments.
  unfold print_transcript. frame.
Qed.

End Methods.

#[export] Hint Resolve respects_convert_cues respects_get_youtube_transcript
  respects_run_hooks respects_ydl_run respects_probe respects_download_audio
  respects_transcribe_audio_local respects_cleanup respects_print_segments
  respects_print_transcript : frame.

#[export] Instance calls_extend_frame P : FrameRel (calls_extend P).
Proof.
  split.
  - intros w. exists []. now rewrite app_nil_r.
  - intros a b c (t1 & E1 & F1) (t2 & E2 & F2). exists (t1 ++ t2). split.
    + now rewrite E2, E1, <- app_assoc.
    + now apply Forall_app.
  - intros w f out. exists []. simpl. now rewrite app_nil_r.
Qed.

#[export] Instance keeps_temp_dir_frame : FrameRel keeps_temp_dir.
Proof. split; unfold keeps_temp_dir; intros; simpl; congruence. Qed.

Lemma calls_enter (P : call -> Prop) c :
  P c -> respects (calls_extend P) (enter c).
Proof. intros H w. exists [c]. split; [reflexivity|]. now constructor. Qed.

Lemma calls_set_temp_dir P d : respects (calls_extend P) (set_temp_dir d).
Proof. intros w. exists []. simpl. now rewrite app_nil_r. Qed.

Lemma temp_dir_enter c : respects keeps_temp_dir (enter c).
Proof. intros w. reflexivity. Qed.

#[export] Hint Resolve calls_extend_frame keeps_temp_dir_frame
  calls_enter calls_set_temp_dir temp_dir_enter : frame.

Lemma respects_local_transcription env url options (P : call -> Prop) :
  P (Call_local_transcription url) ->
  (forall out, P (Call_download_audio url out)) ->
  (forall path size, P (Call_transcribe_audio_local path size)) ->
  respects (calls_extend P) (local_transcription env url options).
Proof. intros H1 H2 H3. unfold local_transcription. frame. Qed.

End Frame.

(** ** The presenter *)


(** ** The orchestrator *)

Import Frame.

(** C5. When no identifier can be extracted from the input,
    [get_transcript] raises [Invalid YouTube URL provided] at once: the
    world is as it was, so nothing was printed, no method was entered and
    no collaborator was called. *)
Theorem get_transcript_invalid_url env url options w :
  extract_video_id url = None ->
  get_transcript env url options w =
  (Raise (Exn Exception "Invalid YouTube URL provided"), w).
Proof.
  intros H. unfold get_transcript, is_valid_youtube_url. now rewrite H.
Qed.

Lemma get_transcript_invalid_url_witness :
  get_transcript
    (Sample.env Sample.hello_captions Sample.m4a_downloader Sample.recogniser)
    "https://vimeo.com/123456" ∅ Sample.w0
  = (Raise (Exn Exception "Invalid YouTube URL provided"), Sample.w0).
Proof. apply get_transcript_invalid_url. reflexivity. Defined.

Lemma dict_get_agree (o o' : gmap string pyval) key dflt :
  o' !! key = o !! key -> dict_get o' key dflt = dict_get o key dflt.
Proof. unfold dict_get. now intros ->. Qed.

Lemma local_transcription_first_call env url options w :
  exists tr,
    calls (local_transcription env url options w).2
    = calls w ++ Call_local_transcription url :: tr.
Proof.
  assert (respects (calls_extend (fun _ => True))
            (dir ← mkdtemp env;
             set_temp_dir (Some dir);;
             try_finally
               (try_except
                  (downloaded_path ←
                     download_audio env url
                       (Path.join dir (str_optional (extract_video_id url) +:+ ".%(ext)s"));
                   segments ← transcribe_audio_local env downloaded_path
                                (dict_get options "model" (PStr "small"));
                   ret segments)
                  (fun e => raise e))
               cleanup)) as H by frame.
  destruct (H (enter (Call_local_transcription url) w).2) as (tr & E & _).
  exists tr. simpl in E. rewrite <- app_assoc in E. exact E.
Qed.

(** The scenario of one English caption track with one cue. *)
Example captions_end_to_end :
  let env := Sample.env Sample.hello_captions Sample.m4a_downloader Sample.recogniser in
  let options : gmap string pyval :=
    {["timestamps" := PBool true; "local_only" := PBool false;
      "no_local" := PBool false; "model" := PStr "small"]} in
  let run := get_transcript env "https://www.youtube.com/watch?v=abc123" options Sample.w0 in
  run.1 = Ret tt /\
  stdout run.2 =
    ["Processing video: abc123"; "🔍 Checking for YouTube transcript...";
     transcript_header "YouTube"; rule; "[00:00] hello"; nl +:+ rule;
     "Total segments: 1"] /\
  calls run.2 =
    [Call_get_youtube_transcript (Some "abc123"); Call_print_transcript "YouTube"].
Proof. cbv zeta. repeat split; vm_compute; reflexivity. Qed.

(** C1. With a true [local_only], the methods that [get_transcript]
    enters never include [get_youtube_transcript], and the run does not
    depend on the caption service at all; the run is the same whatever
    [no_local] holds (any options that agree on every other key give the
    same result and the same world); and for a valid URL the run goes on
    to [local_transcription]. *)
Theorem local_only_never_fetches env url options w :
  truthy (dict_get options "local_only" (PBool false)) = true ->
  calls_extend (fun c => is_fetch c = false) w (get_transcript env url options w).2 /\
  (forall captions,
      get_transcript (with_captions env captions) url options w
      = get_transcript env url options w) /\
  (forall options' : gmap string pyval,
      (forall key, key <> "no_local" -> options' !! key = options !! key) ->
      get_transcript env url options' w = get_transcript env url options w) /\
  (is_valid_youtube_url url = true ->
   exists tr,
     calls (get_transcript env url options w).2
     = calls w ++ Call_local_transcription url :: tr).
Proof.
  intros Hlo. split; [|split; [|split]].
  - assert (respects (calls_extend (fun c => is_fetch c = false))
              (get_transcript env url options)) as H; [|apply H].
    unfold get_transcript. rewrite Hlo. cbn [negb].
    unfold local_transcription. frame.
  - intros captions. destruct env as [c d r t n].
    unfold get_transcript. rewrite Hlo. reflexivity.
  - intros options' Hagree. unfold get_transcript, local_transcription.
    rewrite !(dict_get_agree options options') by (apply Hagree; discriminate).
    rewrite Hlo. reflexivity.
  - intros Hvalid. unfold get_transcript. rewrite Hvalid, Hlo.
    cbv [negb mbind M_bind bind print ret try_except].
    match goal with
    | |- context [local_transcription env url options ?w1] =>
        destruct (local_transcription_first_call env url options w1) as (tr & E);
        destruct (local_transcription env url options w1) as [[segs|e] w2]
    end; simpl in E.
    + match goal with
      | |- context [print_transcript ?s ?t ?src w2] =>
          destruct (respects_print_transcript (calls_extend (fun _ => True)) s t src
                      ltac:(auto with frame) w2) as (tr2 & E2 & _)
      end.
      exists (tr ++ tr2).
      destruct (print_transcript _ _ _ w2) as [[u|e] w3]; simpl in *;
        rewrite E2, E, <- app_assoc; reflexivity.
    + exists tr. simpl. exact E.
Qed.

Lemma local_only_never_fetches_witness :
  let env := Sample.env Sample.hello_captions Sample.m4a_downloader Sample.recogniser in
  let url := "https://www.youtube.com/watch?v=abc123" in
  let options : gmap string pyval :=
    {["local_only" := PBool true; "no_local" := PBool true]} in
  calls_extend (fun c => is_fetch c = false) Sample.w0
    (get_transcript env url options Sample.w0).2 /\
  get_transcript env url (delete "no_local" options) Sample.w0
  = get_transcript env url options Sample.w0.
Proof.
  intros env url options.
  destruct (local_only_never_fetches env url options Sample.w0) as (A & _ & B & _);
    [reflexivity|].
  split; [exact A|]. apply B. intros key Hkey. now apply lookup_delete_ne.
Defined.

(** C2. When the caption fetch is attempted (valid URL, [local_only]
    false) and [get_youtube_transcript] raises [e], a true [no_local]
    makes [get_transcript] raise [No transcript available: ] followed by
    the text of [e], in the world the fetch left; no method entered in
    the run is [download_audio] or [transcribe_audio_local]. *)
Theorem no_local_stops_after_failed_fetch env url options w e w1 :
  is_valid_youtube_url url = true ->
  truthy (dict_get options "local_only" (PBool false)) = false ->
  truthy (dict_get options "no_local" (PBool false)) = true ->
  get_youtube_transcript env (extract_video_id url) (announced url w) = (Raise e, w1) ->
  get_transcript env url options w
  = (Raise (Exn Exception ("No transcript available: " +:+ exn_str e)), w1) /\
  calls_extend (fun c => is_local_step c = false) w w1.
Proof.
  intros Hvalid Hlo Hnl Hfetch. split.
  - unfold get_transcript. rewrite Hvalid, Hlo. cbn [negb].
    cbv [mbind M_bind bind print try_except]. cbn [fs stdout temp_dir calls].
    rewrite <- app_assoc. cbn [app].
    unfold announced in Hfetch. rewrite Hfetch, Hnl. reflexivity.
  - pose proof (respects_get_youtube_transcript
                  (calls_extend (fun c => is_local_step c = false)) env
                  (extract_video_id url) ltac:(auto with frame) (announced url w)) as H.
    rewrite Hfetch in H. exact H.
Qed.

Lemma no_local_stops_after_failed_fetch_witness :
  let env := Sample.env Sample.no_captions Sample.m4a_downloader Sample.recogniser in
  let url := "https://www.youtube.com/watch?v=abc123" in
  let options : gmap string pyval := {["no_local" := PBool true]} in
  (get_transcript env url options Sample.w0).1
  = Raise (Exn Exception
             "No transcript available: No YouTube transcript available: Subtitles are disabled for this video")
  /\ (get_transcript env url options Sample.w0).2.(calls)
     = [Call_get_youtube_transcript (Some "abc123")].
Proof.
  intros env url options.
  destruct (no_local_stops_after_failed_fetch env url options Sample.w0
              (Exn Exception
                 "No YouTube transcript available: Subtitles are disabled for this video")
              (mkWorld ∅
                 ["Processing video: abc123"; "🔍 Checking for YouTube transcript..."]
                 None [Call_get_youtube_transcript (Some "abc123")]))
    as [H _]; [reflexivity | reflexivity | reflexivity | reflexivity |].
  rewrite H. split; reflexivity.
Defined.

(** ** The recogniser adapter *)

Lemma fold_left_snoc {A B} (f : A -> B) (l : list A) :
  forall init, fold_left (fun acc x => acc ++ [f x]) l init = init ++ map f l.
Proof.
  induction l as [|x l IH]; intros init; simpl.
  - now rewrite app_nil_r.
  - now rewrite IH, <- app_assoc.
Qed.



(** ** Audio acquisition *)

Module DownloadFacts.

(** The progress hook prints and nothing else. *)
Lemma run_hooks_prints ds : forall w,
  exists out,
    run_hooks ds w = (Ret tt, mkWorld (fs w) out (temp_dir w) (calls w)).
Proof.
  induction ds as [|d ds IH]; intros w.
  - exists (stdout w). now destruct w.
  - simpl. cbv [mbind M_bind bind].
    destruct d; simpl;
      match goal with
      | |- context [run_hooks ds ?w1] => destruct (IH w1) as [out ->]
      end; now exists out.
Qed.

Lemma ydl_run_outcome env url outtmpl w :
  let o := ydl_download env url outtmpl (fs w) in
  exists out,
    ydl_run env url outtmpl w =
    (match dl_error o with
     | Some e => Raise e
     | None => Ret tt
     end,
     mkWorld (dl_fs o) out (temp_dir w) (calls w)).
Proof.
  intros o. unfold ydl_run. fold o. cbv [mbind M_bind bind].
  match goal with
  | |- context [run_hooks _ ?w1] => destruct (run_hooks_prints (dl_progress o) w1) as [out ->]
  end.
  exists out. now destruct (dl_error o).
Qed.

Lemma probe_first_existing base exts : forall w,
  probe base exts w = (Ret (first_existing (fs w) base exts), w).
Proof.
  induction exts as [|ext exts IH]; intros w; [reflexivity|]. simpl.
  cbv [mbind M_bind bind Path.exists_].
  destruct (bool_decide (base +:+ ext ∈ fs w)); [reflexivity | apply IH].
Qed.



(** What [download_audio] returns, from what the downloader did. *)
Lemma download_audio_result env url output_path w :
  let o := ydl_download env url output_path (fs w) in
  (download_audio env url output_path w).1 =
  match dl_error o with
  | Some e => Raise (Exn Exception ("Download failed: " +:+ exn_str e))
  | None =>
      match first_existing (dl_fs o)
              (Str.replace ".%(ext)s" "" output_path) audio_exts with
      | Some potential_path => Ret potential_path
      | None =>
          Raise (Exn Exception ("Download failed: " +:+ "Downloaded file not found"))
      end
  end.
Proof.
  intros o. unfold download_audio.
  cbv [mbind M_bind bind enter print try_except].
  match goal with
  | |- context [ydl_run env url output_path ?w1] =>
      destruct (ydl_run_outcome env url output_path w1) as [out ->]
  end.
  cbn [fs]. fold o. destruct (dl_error o) as [e|]; [reflexivity|].
  rewrite probe_first_existing. cbn [fs].
  now destruct (first_existing _ _ _).
Qed.

End DownloadFacts.




(** ** The temporary workspace *)

Module WorkspaceFacts.

Lemma join_tmp_nonempty root name :
  String.eqb (Path.join root ("tmp" +:+ name)) "" = false.
Proof.
  unfold Path.join. cbn [String.append].
  change ("tmp" +:+ name) with (String "t" (String "m" (String "p" name))).
  cbv iota beta.
  apply String.eqb_neq. intros H. apply (f_equal String.length) in H.
  destruct (String.eqb root "" || Path.ends_with_slash root);
    rewrite ?StrFacts.length_app in H; simpl in H; lia.
Qed.

Lemma within_self d : Path.within d d = true.
Proof. unfold Path.within. now rewrite String.eqb_refl. Qed.

Lemma cleanup_removes d w :
  temp_dir w = Some d -> String.eqb d "" = false -> d ∉ fs (cleanup w).2.
Proof.
  intros Htd Hne. unfold cleanup.
  cbv [mbind M_bind bind get_temp_dir Path.exists_ Path.rmtree ret].
  rewrite Htd, Hne. cbn [negb].
  destruct (bool_decide (d ∈ fs w)) eqn:E; cbn [snd fs].
  - rewrite elem_of_filter, within_self. intros [H _]. discriminate H.
  - exact (bool_decide_eq_false_1 _ E).
Qed.

Lemma try_finally_world {A} (m : M A) c w :
  (try_finally m c w).2 = (c (m w).2).2.
Proof.
  unfold try_finally. destruct (m w) as [r w1]. simpl.
  now destruct (c w1) as [[u|e] w2].
Qed.

(** Whatever the collaborators do and however the body ends, the
    directory that [mkdtemp] made is not on disk when
    [local_transcription] is over. *)
Lemma local_transcription_removes_workspace env url options w :
  let dir := Path.join (tmp_root env) ("tmp" +:+ mkdtemp_name env (fs w)) in
  dir ∉ fs (local_transcription env url options w).2.
Proof.
  intros dir.
  set (body :=
         try_except
           (downloaded_path ←
              download_audio env url
                (Path.join dir (str_optional (extract_video_id url) +:+ ".%(ext)s"));
            segments ← transcribe_audio_local env downloaded_path
                         (dict_get options "model" (PStr "small"));
            ret segments)
           (fun e => raise e)).
  set (w1 := mkWorld ({[dir]} ∪ fs w) (stdout w) (Some dir)
               (calls w ++ [Call_local_transcription url])).
  change (local_transcription env url options w) with (try_finally body cleanup w1).
  rewrite try_finally_world.
  apply cleanup_removes; [|apply join_tmp_nonempty].
  assert (respects keeps_temp_dir body) as H by (unfold body; Frame.frame).
  now rewrite (H w1).
Qed.

End WorkspaceFacts.

(** The three ways out of [local_transcription], on sample collaborators
    and a well-behaved identifier: the download fails, the recogniser
    fails, both succeed. Each time the disk is left as it was found. *)
Example local_transcription_exit_paths :
  let url := "https://www.youtube.com/watch?v=abc123" in
  let run downloader recog :=
    local_transcription (Sample.env Sample.no_captions downloader recog)
      url ∅ Sample.w0 in
  let lost := run (Sample.failing_downloader "connection reset") Sample.recogniser in
  let deaf := run Sample.m4a_downloader Sample.broken_recogniser in
  let fine := run Sample.m4a_downloader Sample.recogniser in
  lost.1 = Raise (Exn Exception "Download failed: connection reset") /\
  deaf.1 = Raise (Exn Exception "Local transcription failed: out of memory") /\
  (exists segments, fine.1 = Ret segments) /\
  elements (fs lost.2) = [] /\ elements (fs deaf.2) = [] /\ elements (fs fine.2) = [].
Proof.
  cbv zeta. split; [reflexivity|]. split; [reflexivity|].
  split; [eexists; reflexivity|]. repeat split; vm_compute; reflexivity.
Qed.

(** C3: the directory goes, the audio file may stay. The identifier is
    pasted into the path of the audio file as it comes, and
    [os.path.join] drops the workspace when the identifier starts with a
    slash: for the URL below the downloader is told to write
    [/tmp/x.%(ext)s], the recogniser reads [/tmp/x.m4a], the call returns
    its segments, the workspace is removed, and [/tmp/x.m4a], which was
    not there before, is still on disk. *)
Theorem local_transcription_leaves_audio_behind :
  let env := Sample.env Sample.no_captions Sample.m4a_downloader Sample.recogniser in
  let url := "https://www.youtube.com/watch?feature=youtu.be//tmp/x&v=dQw4w9WgXcQ" in
  let run := local_transcription env url ∅ Sample.w0 in
  extract_video_id url = Some "/tmp/x" /\
  (exists segments, run.1 = Ret segments) /\
  calls run.2 =
    [Call_local_transcription url;
     Call_download_audio url "/tmp/x.%(ext)s";
     Call_transcribe_audio_local "/tmp/x.m4a" (PStr "small")] /\
  elements (fs Sample.w0) = [] /\
  elements (fs run.2) = ["/tmp/x.m4a"].
Proof.
  cbv zeta. split; [reflexivity|]. split; [eexists; reflexivity|].
  split; [reflexivity|]. split; vm_compute; reflexivity.
Qed.

(** * Further properties *)

(** ** The URL parser *)

Module GreedyFacts.
Import StrFacts ReFacts PatternFacts.

(** A run of matching characters in front does not lose a match. *)
Lemma star_prepend cl k m : forall s1 s2,
  Str.all (Re.cmatch cl) s1 = true -> Re.star cl s2 k = Some m ->
  Re.star cl (s1 +:+ s2) k = Some m.
Proof.
  induction s1 as [|c s1 IH]; intros s2 Hall H; [exact H|].
  simpl in Hall. apply andb_prop in Hall as [Hc Hall].
  rewrite app_cons. simpl. now rewrite Hc, (IH s2 Hall H).
Qed.

(** When nothing further to the right works, the star stays. *)
Lemma star_stay cl k s :
  (forall a b, s = a +:+ b -> a <> "" -> Str.all (Re.cmatch cl) a = true -> k b = None) ->
  Re.star cl s k = k s.
Proof.
  intros H. destruct s as [|c s]; [reflexivity|]. simpl.
  destruct (Re.cmatch cl c) eqn:Hc; [|reflexivity].
  destruct (Re.star cl s k) as [m|] eqn:E; [|reflexivity].
  apply star_sound in E as (s1 & s2 & -> & Hall & Hk).
  rewrite (H (String c s1) s2) in Hk; [discriminate|reflexivity|discriminate|].
  simpl. now rewrite Hc.
Qed.

Lemma v_here_false s :
  v_here s = false ->
  match Str.strip_prefix "v=" s with
  | Some s3 => option_map Some (id_at s3)
  | None => None
  end = None.
Proof.
  unfold v_here. destruct (Str.strip_prefix "v=" s) as [[|d r]|]; try reflexivity.
  unfold id_at. now intros ->.
Qed.

Lemma no_later_v_spec : forall a s b,
  no_later_v s = true -> s = a +:+ b -> Str.all not_newline a = true ->
  v_here b = false.
Proof.
  induction a as [|c a IH]; intros s b Hs -> Ha.
  - rewrite app_nil_l in Hs. destruct b as [|c b]; [reflexivity|].
    cbn [no_later_v] in Hs. apply andb_prop in Hs as [Hs _].
    now apply negb_true_iff in Hs.
  - simpl in Ha. apply andb_prop in Ha as [Hc Ha].
    rewrite app_cons in Hs. cbn [no_later_v] in Hs.
    apply andb_prop in Hs as [_ Hs]. rewrite Hc in Hs.
    now apply (IH (a +:+ b)).
Qed.

Lemma match_here_pattern2_not_y c s :
  not_y c = true -> Re.match_here pattern2 (String c s) = None.
Proof.
  intros H. rewrite match_here_pattern2. cbn [Str.strip_prefix].
  unfold not_y in H. apply negb_true_iff in H. rewrite Ascii.eqb_sym in H.
  now rewrite H.
Qed.

Lemma search_pattern2_skip pre s :
  Str.all not_y pre = true ->
  Re.search pattern2 (pre +:+ s) = Re.search pattern2 s.
Proof.
  induction pre as [|c pre IH]; intros H; [reflexivity|].
  simpl in H. apply andb_prop in H as [Hc H]. rewrite app_cons.
  simpl. now rewrite (match_here_pattern2_not_y _ _ Hc), IH.
Qed.

End GreedyFacts.

(** X1. Whatever [extract_video_id] returns is a non-empty piece of the
    input without [&], newline, [?] or [#], followed in the input by
    nothing or by one of these four characters. *)
Theorem extract_video_id_result url id :
  extract_video_id url = Some id ->
  id <> "" /\ Str.all id_char id = true /\
  exists pre post, url = pre +:+ id +:+ post /\ ends_id post = true.
Proof.
  unfold extract_video_id, patterns, first_match.
  destruct (Re.search pattern1 url) as [m|] eqn:E1.
  - intros ->. apply PatternFacts.search_pattern1_Some in E1
      as (pre & mk & i & tail & [= <-] & _ & Hne & Hall & Hend & -> & _).
    repeat split; try assumption.
    exists (pre +:+ mk), tail. now rewrite !StrFacts.app_assoc.
  - destruct (Re.search pattern2 url) as [m|] eqn:E2; [|discriminate].
    intros ->. apply ReFacts.search_sound in E2 as (pre & t & -> & H).
    apply PatternFacts.match_here_pattern2_Some in H
      as (mid & rest & i & -> & _ & Hi & [= <-]).
    apply PatternFacts.id_at_Some in Hi
      as (_ & _ & tail & _ & _ & -> & Hne & Hall & Hend).
    repeat split; try assumption.
    exists (pre +:+ "youtube.com/watch?" +:+ mid +:+ "v="), tail.
    now rewrite !StrFacts.app_assoc.
Qed.

Lemma extract_video_id_result_witness :
  "abc123" <> "" /\ Str.all id_char "abc123" = true /\
  exists pre post,
    "https://youtu.be/abc123?t=1" = pre +:+ "abc123" +:+ post /\ ends_id post = true.
Proof.
  exact (extract_video_id_result "https://youtu.be/abc123?t=1" "abc123" eq_refl).
Defined.

(** X2. [is_valid_youtube_url] accepts exactly the strings that hold a
    marker followed by an identifier character, or [youtube.com/watch?]
    followed on the same line by [v=] and an identifier character. *)
Theorem is_valid_youtube_url_iff url :
  is_valid_youtube_url url = true <-> contains_shape url \/ contains_watch_v url.
Proof.
  rewrite PatternFacts.contains_shape_search, PatternFacts.contains_watch_v_search.
  unfold is_valid_youtube_url, extract_video_id, patterns, first_match.
  destruct (Re.search pattern1 url) as [m|] eqn:E1.
  - apply PatternFacts.search_pattern1_Some in E1 as (_ & _ & i & _ & -> & _).
    split; [intros _; left; discriminate | reflexivity].
  - destruct (Re.search pattern2 url) as [m|] eqn:E2.
    + apply PatternFacts.search_pattern2_Some in E2 as [[i ->] _].
      split; [intros _; right; discriminate | reflexivity].
    + split; [discriminate | intros [H|H]; now destruct H].
Qed.

Lemma is_valid_youtube_url_iff_witness :
  is_valid_youtube_url "see youtu.be/abc123" = true /\
  (contains_shape "https://vimeo.com/123456" \/
   contains_watch_v "https://vimeo.com/123456" -> False).
Proof.
  split.
  - apply (proj2 (is_valid_youtube_url_iff "see youtu.be/abc123")). left.
    exists "see ", "youtu.be/", "a"%char, "bc123".
    split; [simpl; tauto | split; reflexivity].
  - intros H.
    apply (proj2 (is_valid_youtube_url_iff "https://vimeo.com/123456")) in H.
    discriminate H.
Defined.

(** X3. When the first pattern finds nothing, the second one returns the
    identifier after the last [v=] of the line that an identifier
    character follows: the [.*] in front of it is greedy. So the [v=]
    that closes another parameter name, as in [rev=2], wins over an
    earlier [v=]. *)
Theorem second_pattern_takes_last_v pre mid id tail :
  let url := pre +:+ "youtube.com/watch?" +:+ mid +:+ "v=" +:+ id +:+ tail in
  ~ contains_shape url ->
  Str.all not_y pre = true ->
  Str.all not_newline mid = true ->
  id <> "" -> Str.all id_char id = true -> ends_id tail = true ->
  no_later_v (id +:+ tail) = true ->
  extract_video_id url = Some id.
Proof.
  intros url Hshape Hpre Hmid Hne Hall Hend Hlast.
  unfold extract_video_id, patterns, first_match.
  rewrite PatternFacts.contains_shape_search in Hshape.
  destruct (Re.search pattern1 url); [now destruct Hshape|].
  unfold url. rewrite (GreedyFacts.search_pattern2_skip _ _ Hpre).
  rewrite (ReFacts.search_hit _ _ (Some id)); [reflexivity|].
  rewrite PatternFacts.match_here_pattern2, StrFacts.strip_prefix_app.
  apply GreedyFacts.star_prepend; [assumption|].
  rewrite GreedyFacts.star_stay.
  - now rewrite StrFacts.strip_prefix_app, (PatternFacts.id_at_app _ _ Hne Hall Hend).
  - intros a b Hab Ha Hdot. apply GreedyFacts.v_here_false.
    destruct a as [|c1 [|c2 a]]; [contradiction| |].
    + change (String "v" (String "=" (id +:+ tail)) = String c1 b) in Hab.
      injection Hab as _ <-. reflexivity.
    + change (String "v" (String "=" (id +:+ tail))
              = String c1 (String c2 (a +:+ b))) in Hab.
      injection Hab as _ _ Hab.
      simpl in Hdot. apply andb_prop in Hdot as [_ Hdot].
      apply andb_prop in Hdot as [_ Hdot].
      now apply (GreedyFacts.no_later_v_spec a (id +:+ tail) b).
Qed.

Lemma second_pattern_takes_last_v_witness :
  extract_video_id "https://www.youtube.com/watch?list=PL1&v=abc123&t=5"
  = Some "abc123" /\
  extract_video_id "https://www.youtube.com/watch?list=PL1&v=abc123&rev=2"
  = Some "2".
Proof.
  split.
  - apply (second_pattern_takes_last_v "https://www." "list=PL1&" "abc123" "&t=5");
      try reflexivity; [|discriminate].
    intros H. apply PatternFacts.contains_shape_search in H. now apply H.
  - apply (second_pattern_takes_last_v "https://www." "list=PL1&v=abc123&re" "2" "");
      try reflexivity; [|discriminate].
    intros H. apply PatternFacts.contains_shape_search in H. now apply H.
Defined.

(** ** Timestamps *)

Module StampFacts.

Lemma digit_inj a b :
  (0 <= a <= 9)%Z -> (0 <= b <= 9)%Z -> digit a = digit b -> a = b.
Proof.
  intros Ha Hb H. unfold digit in H.
  apply (f_equal nat_of_ascii) in H.
  rewrite !nat_ascii_embedding in H by lia. lia.
Qed.

Lemma two_digits_inj n m :
  (0 <= n < 100)%Z -> (0 <= m < 100)%Z -> two_digits n = two_digits m -> n = m.
Proof.
  intros Hn Hm H. unfold two_digits in H. injection H as H1 H2.
  apply digit_inj in H1, H2; Z.div_mod_to_equations; lia.
Qed.

End StampFacts.




(** X6. Below one hundred hours, two non-negative numbers of seconds that
    are rendered alike have the same whole seconds: no two distinct whole
    seconds share a timestamp. *)
Theorem format_timestamp_injective a b :
  (0 <= a)%Q -> (a < 360000)%Q -> (0 <= b)%Q -> (b < 360000)%Q ->
  format_timestamp a = format_timestamp b -> Qfloor a = Qfloor b.
Proof.
  intros Ha0 Ha1 Hb0 Hb1.
  rewrite (NumFacts.format_timestamp_fields a), (NumFacts.format_timestamp_fields b).
  cbv zeta.
  assert (B : forall x, (0 <= x)%Q -> (x < 360000)%Q -> (0 <= Qfloor x < 360000)%Z).
  { intros x H0 H1. split.
    - apply Qfloor_resp_le in H0. exact H0.
    - pose proof (Qfloor_le x). rewrite Zlt_Qlt.
      change (inject_Z 360000) with 360000%Q. lra. }
  pose proof (B a Ha0 Ha1) as Hta. pose proof (B b Hb0 Hb1) as Htb.
  set (t := Qfloor a) in *. set (u := Qfloor b) in *.
  rewrite !NumFacts.fmt_02d_two_digits by (Z.div_mod_to_equations; lia).
  unfold two_digits at 1 2 3 4 5 6 7 8 9 10.
  destruct (t / 3600 >? 0)%Z eqn:Et; destruct (u / 3600 >? 0)%Z eqn:Eu;
    cbv [String.append]; intros H.
  - injection H as H1 H2 H3 H4 H5 H6.
    assert (two_digits (t / 3600) = two_digits (u / 3600)) as E1
      by (unfold two_digits; congruence).
    assert (two_digits (t mod 3600 / 60) = two_digits (u mod 3600 / 60)) as E2
      by (unfold two_digits; congruence).
    assert (two_digits (t mod 60) = two_digits (u mod 60)) as E3
      by (unfold two_digits; congruence).
    apply StampFacts.two_digits_inj in E1, E2, E3; Z.div_mod_to_equations; lia.
  - apply (f_equal String.length) in H. discriminate H.
  - apply (f_equal String.length) in H. discriminate H.
  - injection H as H1 H2 H3 H4.
    assert (two_digits (t mod 3600 / 60) = two_digits (u mod 3600 / 60)) as E2
      by (unfold two_digits; congruence).
    assert (two_digits (t mod 60) = two_digits (u mod 60)) as E3
      by (unfold two_digits; congruence).
    rewrite Z.gtb_ltb, Z.ltb_ge in Et, Eu.
    apply StampFacts.two_digits_inj in E2, E3; Z.div_mod_to_equations; lia.
Qed.

Lemma format_timestamp_injective_witness : Qfloor 61 = Qfloor (123 # 2).
Proof.
  apply format_timestamp_injective;
    [discriminate | reflexivity | discriminate | reflexivity | reflexivity].
Defined.

(** ** What a method returns and what it raises *)

Create HintDb ensures.

Module Ensures.

Lemma prefix_app p s : String.prefix p (p +:+ s) = true.
Proof.
  induction p as [|c p IH]; [now destruct s|].
  rewrite StrFacts.app_cons. simpl.
  destruct (ascii_dec c c); [assumption | contradiction].
Qed.

Lemma plain p s : plain_with_prefix p (Exn Exception (p +:+ s)).
Proof. split; [reflexivity | apply prefix_app]. Qed.

Lemma ensures_any {A} (m : M A) : ensures anything anything m.
Proof. intros w. now destruct (m w).1. Qed.


Lemma ensures_ret {A} (Q : A -> Prop) P a : Q a -> ensures Q P (ret a).
Proof. intros H w. exact H. Qed.

Lemma ensures_raise {A} (Q : A -> Prop) (P : exn -> Prop) e :
  P e -> ensures Q P (raise e).
Proof. intros H w. exact H. Qed.

Lemma ensures_bind {A B} (Q1 : A -> Prop) (Q : B -> Prop) P (m : M A) (k : A -> M B) :
  ensures Q1 P m -> (forall a, Q1 a -> ensures Q P (k a)) -> ensures Q P (m ≫= k).
Proof.
  intros Hm Hk w. unfold mbind, M_bind, bind.
  specialize (Hm w). destruct (m w) as [[a|e] w1]; simpl in *; [|assumption].
  apply (Hk a Hm).
Qed.

Lemma ensures_try_except {A} (Q : A -> Prop) (P1 P : exn -> Prop) (m : M A) h :
  ensures Q P1 m -> (forall e, P1 e -> ensures Q P (h e)) ->
  ensures Q P (try_except m h).
Proof.
  intros Hm Hh w. unfold try_except.
  specialize (Hm w). destruct (m w) as [[a|e] w1]; simpl in *; [assumption|].
  apply (Hh e Hm).
Qed.


(** The steps that always return. *)
Lemma ensures_print P l : ensures anything P (print l).
Proof. intros w. exact I. Qed.

Lemma ensures_enter P c : ensures anything P (enter c).
Proof. intros w. exact I. Qed.

Lemma ensures_set_temp_dir P d : ensures anything P (set_temp_dir d).
Proof. intros w. exact I. Qed.

Lemma ensures_mkdtemp P env : ensures anything P (mkdtemp env).
Proof. intros w. exact I. Qed.

Lemma ensures_cleanup P : ensures anything P cleanup.
Proof.
  intros w. unfold cleanup.
  cbv [mbind M_bind bind get_temp_dir Path.exists_ Path.rmtree ret].
  destruct (temp_dir w) as [d|]; [|exact I].
  destruct (negb (String.eqb d "")); [|exact I].
  now destruct (bool_decide (d ∈ fs w)).
Qed.

(** A collaborator may return or raise anything. *)
Lemma ensures_extern {A} (c : collab A) : ensures anything anything (extern c).
Proof. apply ensures_any. Qed.

End Ensures.

#[export] Hint Resolve Ensures.ensures_print Ensures.ensures_enter
  Ensures.ensures_set_temp_dir Ensures.ensures_mkdtemp Ensures.ensures_extern
  Ensures.ensures_cleanup Ensures.ensures_any Ensures.plain : ensures.

(** One step of a sequence whose value does not matter. *)
Ltac step := apply (Ensures.ensures_bind anything); [auto with ensures|]; intros ? _.

(** ** The caption fetcher *)

Module FetchFacts.

(** The conversion loop returns the cues as segments, after what was
    gathered before, ... *)
Lemma convert_cues_ok cues : forall acc w,
  Forall cue_ok cues ->
  convert_cues cues acc w = (Ret (acc ++ map cue_segment cues), w).
Proof.
  induction cues as [|c cues IH]; intros acc w H.
  - simpl. now rewrite List.app_nil_r.
  - inversion H as [|? ? [[t Ht] [s Hs]] Hrest]; subst.
    simpl. unfold convert_cue. cbv [mbind M_bind bind lift ret].
    rewrite Ht, Hs. cbv [ret]. rewrite (IH _ _ Hrest), <- List.app_assoc.
    unfold cue_segment. now rewrite Ht, Hs.
Qed.

(** ... or stops at the first cue that lacks a key. *)
Lemma convert_cues_missing good bad rest acc w :
  Forall cue_ok good -> ~ cue_ok bad ->
  convert_cues (good ++ bad :: rest) acc w =
  (Raise (Exn KeyError (match cue_text bad with
                        | None => "'text'"
                        | Some _ => "'start'"
                        end)), w).
Proof.
  intros Hgood Hbad. revert acc.
  induction Hgood as [|c good [[t Ht] [s Hs]] _ IH]; intros acc.
  - simpl. unfold convert_cue. cbv [mbind M_bind bind lift ret raise].
    destruct (cue_text bad) as [t|] eqn:Ht; [|reflexivity].
    destruct (cue_start bad) as [s|] eqn:Hs; [|reflexivity].
    exfalso. apply Hbad. split; [rewrite Ht | rewrite Hs]; eauto.
  - simpl. unfold convert_cue at 1. cbv [mbind M_bind bind lift ret].
    rewrite Ht, Hs. cbv [ret]. apply IH.
Qed.

Lemma convert_cues_segments cues : forall acc w out w',
  convert_cues cues acc w = (Ret out, w') ->
  Forall segment_ok acc -> Forall segment_ok out.
Proof.
  induction cues as [|c cues IH]; intros acc w out w' H Hacc.
  - simpl in H. now inversion H; subst.
  - simpl in H. unfold convert_cue in H. cbv [mbind M_bind bind lift ret raise] in H.
    destruct (cue_text c) as [t|]; [|discriminate].
    destruct (cue_start c) as [s|]; [|discriminate].
    apply IH in H; [assumption|]. apply Forall_app. split; [assumption|].
    constructor; [|constructor]. repeat split; simpl; eauto.
Qed.

Lemma convert_cues_ensures cues :
  ensures (Forall segment_ok) anything (convert_cues cues []).
Proof.
  intros w. destruct (convert_cues cues [] w) as [[out|e] w'] eqn:E; [|exact I].
  eapply convert_cues_segments; [exact E | constructor].
Qed.

(** What the fetcher returns has all three keys in every segment, and
    what it raises is one of its two kinds of failure. *)
Lemma get_youtube_transcript_ensures env video_id :
  ensures (Forall segment_ok) fetch_error (get_youtube_transcript env video_id).
Proof.
  unfold get_youtube_transcript. step.
  apply (Ensures.ensures_try_except _ anything).
  - step. step. step. apply convert_cues_ensures.
  - intros e _. destruct (exn_cls e); apply Ensures.ensures_raise;
      ((left; apply Ensures.plain) || (right; apply Ensures.plain)).
Qed.

End FetchFacts.

(** X7. Whatever goes wrong inside [get_youtube_transcript], the caller
    sees a plain [Exception] whose text starts with [No YouTube
    transcript available: ] or with [Error fetching transcript: ]. *)
Theorem get_youtube_transcript_raises env video_id w e :
  (get_youtube_transcript env video_id w).1 = Raise e -> fetch_error e.
Proof.
  intros E. pose proof (FetchFacts.get_youtube_transcript_ensures env video_id w) as H.
  now rewrite E in H.
Qed.

Lemma get_youtube_transcript_raises_witness :
  fetch_error
    (Exn Exception
       "No YouTube transcript available: Subtitles are disabled for this video").
Proof.
  apply (get_youtube_transcript_raises
           (Sample.env Sample.no_captions Sample.m4a_downloader Sample.recogniser)
           (Some "abc123") Sample.w0).
  reflexivity.
Defined.

(** X8. When the service lists the tracks, has an English one, and its
    cues all carry text and start, [get_youtube_transcript] returns one
    segment per cue, in order, with the cue's text and start and the
    cue's duration or 0 when the cue has none; the only thing it changes
    is the disk, as the service left it. *)
Theorem get_youtube_transcript_english_first env video_id w tl files1 track cues files2 :
  list_transcripts env video_id (fs w) = (inr tl, files1) ->
  find_transcript tl ["en"] = inr track ->
  fetch track files1 = (inr cues, files2) ->
  Forall cue_ok cues ->
  get_youtube_transcript env video_id w =
  (Ret (map cue_segment cues),
   mkWorld files2 (stdout w) (temp_dir w)
     (calls w ++ [Call_get_youtube_transcript video_id])).
Proof.
  intros Hlist Hen Hfetch Hcues. unfold get_youtube_transcript.
  cbv [mbind M_bind bind enter try_except extern lift ret].
  cbn [fs stdout temp_dir calls]. rewrite Hlist. rewrite Hen.
  cbv [ret]. cbn [fs stdout temp_dir calls]. rewrite Hfetch.
  now rewrite (FetchFacts.convert_cues_ok _ _ _ Hcues).
Qed.

Lemma get_youtube_transcript_english_first_witness :
  get_youtube_transcript
    (Sample.env Sample.hello_captions Sample.m4a_downloader Sample.recogniser)
    (Some "abc123") Sample.w0
  = (Ret [Segment (Some "hello") (Some 0%Q) (Some (3 # 2)%Q)],
     mkWorld ∅ [] None [Call_get_youtube_transcript (Some "abc123")]).
Proof.
  eapply (get_youtube_transcript_english_first
            (Sample.env Sample.hello_captions Sample.m4a_downloader Sample.recogniser)
            (Some "abc123") Sample.w0 _ _ _
            [Cue (Some "hello") (Some 0%Q) (Some (3 # 2)%Q)]);
    [reflexivity | reflexivity | reflexivity |].
  repeat constructor; simpl; eauto.
Defined.



(** X10. One cue without ['text'], or with text but without ['start'],
    spoils the whole fetch: nothing of the cues before it is returned,
    and the failure reads [Error fetching transcript: ] followed by the
    quoted name of the missing key. *)
Theorem get_youtube_transcript_missing_key env video_id w tl files1 track
    good bad rest files2 :
  list_transcripts env video_id (fs w) = (inr tl, files1) ->
  find_transcript tl ["en"] = inr track ->
  fetch track files1 = (inr (good ++ bad :: rest), files2) ->
  Forall cue_ok good -> ~ cue_ok bad ->
  (get_youtube_transcript env video_id w).1
  = Raise (Exn Exception
             ("Error fetching transcript: " +:+
              match cue_text bad with
              | None => "'text'"
              | Some _ => "'start'"
              end)).
Proof.
  intros Hlist Hen Hfetch Hgood Hbad. unfold get_youtube_transcript.
  cbv [mbind M_bind bind enter try_except extern lift ret].
  cbn [fs stdout temp_dir calls]. rewrite Hlist, Hen.
  cbv [ret]. cbn [fs stdout temp_dir calls]. rewrite Hfetch.
  now rewrite (FetchFacts.convert_cues_missing _ _ _ _ _ Hgood Hbad).
Qed.

Lemma get_youtube_transcript_missing_key_witness :
  (get_youtube_transcript
     (Sample.env Cases.broken_cue Sample.m4a_downloader Sample.recogniser)
     (Some "abc123") Sample.w0).1
  = Raise (Exn Exception "Error fetching transcript: 'text'").
Proof.
  eapply (get_youtube_transcript_missing_key
            (Sample.env Cases.broken_cue Sample.m4a_downloader Sample.recogniser)
            (Some "abc123") Sample.w0 _ _ _
            [Cue (Some "hello") (Some 0%Q) (Some (3 # 2)%Q)]
            (Cue None (Some (3 # 2)%Q) None) []);
    [reflexivity | reflexivity | reflexivity | |].
  - repeat constructor; simpl; eauto.
  - intros [[t Ht] _]. discriminate Ht.
Defined.

(** X11. A failure of the service itself is reported by its class:
    disabled captions, no transcript found and an unavailable video read
    [No YouTube transcript available: ], any other failure reads [Error
    fetching transcript: ], each followed by the service's own text. *)
Theorem get_youtube_transcript_service_failure env video_id w e files1 :
  list_transcripts env video_id (fs w) = (inl e, files1) ->
  (get_youtube_transcript env video_id w).1
  = Raise (Exn Exception
             ((match exn_cls e with
               | TranscriptsDisabled | NoTranscriptFound | VideoUnavailable =>
                   "No YouTube transcript available: "
               | _ => "Error fetching transcript: "
               end) +:+ exn_str e)).
Proof.
  intros Hlist. unfold get_youtube_transcript.
  cbv [mbind M_bind bind enter try_except extern].
  cbn [fs stdout temp_dir calls]. rewrite Hlist.
  now destruct (exn_cls e).
Qed.

Lemma get_youtube_transcript_service_failure_witness :
  (get_youtube_transcript
     (Sample.env Sample.no_captions Sample.m4a_downloader Sample.recogniser)
     (Some "abc123") Sample.w0).1
  = Raise (Exn Exception
             "No YouTube transcript available: Subtitles are disabled for this video").
Proof.
  apply (get_youtube_transcript_service_failure
           (Sample.env Sample.no_captions Sample.m4a_downloader Sample.recogniser)
           (Some "abc123") Sample.w0
           (Exn TranscriptsDisabled "Subtitles are disabled for this video") ∅).
  reflexivity.
Defined.

(** ** The presenter, on any segments *)

Module PrintFacts.

Lemma print_segments_lines show : forall segments lines w,
  Forall2 (fun seg line => rendered show seg = Some line) segments lines ->
  print_segments show segments w =
  (Ret tt, mkWorld (fs w) (stdout w ++ lines) (temp_dir w) (calls w)).
Proof.
  induction segments as [|seg segments IH]; intros lines w H; inversion H; subst.
  - simpl. rewrite List.app_nil_r. now destruct w.
  - match goal with Hr : rendered _ _ = Some _ |- _ => rename Hr into Hline end.
    simpl. unfold print_segment. cbv [mbind M_bind bind].
    unfold rendered in Hline.
    destruct (seg_start seg) as [start|]; [destruct (seg_text seg) as [text|]|];
      try discriminate; injection Hline as <-;
      cbv [lift ret mbind M_bind bind]; destruct (truthy show);
      cbv [print]; cbn [fs stdout temp_dir calls];
      (erewrite IH by eassumption); cbn [fs stdout temp_dir calls];
      now rewrite <- List.app_assoc.
Qed.

Lemma print_segments_stops show : forall good lines bad rest w,
  Forall2 (fun seg line => rendered show seg = Some line) good lines ->
  rendered show bad = None ->
  print_segments show (good ++ bad :: rest) w =
  (Raise (Exn KeyError "'text'"),
   mkWorld (fs w) (stdout w ++ lines) (temp_dir w) (calls w)).
Proof.
  induction good as [|seg good IH]; intros lines bad rest w H Hbad;
    inversion H; subst.
  - simpl. unfold print_segment. cbv [mbind M_bind bind].
    unfold rendered in Hbad.
    destruct (seg_start bad) as [start|]; [destruct (seg_text bad) as [text|]|];
      try discriminate.
    cbv [lift raise mbind M_bind bind]. rewrite List.app_nil_r. now destruct w.
  - match goal with Hr : rendered _ _ = Some _ |- _ => rename Hr into Hline end.
    simpl. unfold print_segment at 1. cbv [mbind M_bind bind].
    unfold rendered in Hline.
    destruct (seg_start seg) as [start|]; [destruct (seg_text seg) as [text|]|];
      try discriminate; injection Hline as <-;
      cbv [lift ret mbind M_bind bind]; destruct (truthy show);
      cbv [print]; cbn [fs stdout temp_dir calls];
      (rewrite (IH _ _ _ _ ltac:(eassumption) Hbad)); cbn [fs stdout temp_dir calls];
      now rewrite <- List.app_assoc.
Qed.

Lemma print_transcript_lines segments lines show source w :
  Forall2 (fun seg line => rendered show seg = Some line) segments lines ->
  print_transcript segments show source w =
  (Ret tt,
   mkWorld (fs w)
     (stdout w ++ [transcript_header source; rule] ++ lines ++
      [nl +:+ rule; "Total segments: " +:+ Num.str_int (Z.of_nat (length segments))])
     (temp_dir w)
     (calls w ++ [Call_print_transcript source])).
Proof.
  intros H. unfold print_transcript, transcript_header, rule.
  cbv [mbind M_bind bind enter].
  destruct (String.eqb source ""); cbn [negb]; cbv [print];
    cbn [fs stdout temp_dir calls];
    rewrite (print_segments_lines _ _ _ _ H);
    cbn [fs stdout temp_dir calls];
    rewrite <- !List.app_assoc; reflexivity.
Qed.

Lemma rendered_ok show seg :
  segment_ok seg -> exists line, rendered show seg = Some line.
Proof.
  intros ([t Ht] & [s Hs] & _). unfold rendered. rewrite Hs, Ht. eauto.
Qed.

Lemma rendered_all show segments :
  Forall segment_ok segments ->
  exists lines, Forall2 (fun seg line => rendered show seg = Some line) segments lines.
Proof.
  induction 1 as [|seg segments Hseg _ [lines IH]].
  - exists []. constructor.
  - destruct (rendered_ok show seg Hseg) as [line Hline].
    exists (line :: lines). now constructor.
Qed.

End PrintFacts.

(** X12. When every segment can be rendered (it has a text, or it has no
    start), [print_transcript] returns normally and prints the header,
    the rule, one line per segment in order ([[timestamp] text], or the
    bare text when timestamps are off; a segment without start is
    stamped 00:00 and an absent text is empty), the rule after a blank
    line, and the number of segments. *)
Theorem print_transcript_renders segments lines show_timestamps source w :
  Forall2 (fun seg line => rendered show_timestamps seg = Some line) segments lines ->
  print_transcript segments show_timestamps source w =
  (Ret tt,
   mkWorld (fs w)
     (stdout w ++ [transcript_header source; rule] ++ lines ++
      [nl +:+ rule; "Total segments: " +:+ Num.str_int (Z.of_nat (length segments))])
     (temp_dir w)
     (calls w ++ [Call_print_transcript source])).
Proof. apply PrintFacts.print_transcript_lines. Qed.

Lemma print_transcript_renders_witness :
  (print_transcript
     [Segment (Some "hi") (Some 65%Q) (Some 1%Q); Segment (Some "bye") None None]
     (PBool true) "YouTube" Sample.w0).2.(stdout)
  = [transcript_header "YouTube"; rule; "[01:05] hi"; "[00:00] bye";
     nl +:+ rule; "Total segments: 2"] /\
  (print_transcript [Segment (Some "hi") (Some 65%Q) (Some 1%Q)]
     (PBool false) "" Sample.w0).2.(stdout)
  = [transcript_header ""; rule; "hi"; nl +:+ rule; "Total segments: 1"].
Proof.
  split.
  - rewrite (print_transcript_renders _ ["[01:05] hi"; "[00:00] bye"]);
      [reflexivity|].
    repeat constructor.
  - rewrite (print_transcript_renders _ ["hi"]); [reflexivity|].
    repeat constructor.
Defined.

(** X13. A segment that has a start but no text stops the presenter with
    [KeyError: 'text']: the header, the rule and the lines of the
    segments before it are on the output, the closing rule and the count
    are not. *)
Theorem print_transcript_missing_text good lines bad rest show_timestamps source w :
  Forall2 (fun seg line => rendered show_timestamps seg = Some line) good lines ->
  is_Some (seg_start bad) -> seg_text bad = None ->
  print_transcript (good ++ bad :: rest) show_timestamps source w =
  (Raise (Exn KeyError "'text'"),
   mkWorld (fs w) (stdout w ++ [transcript_header source; rule] ++ lines)
     (temp_dir w) (calls w ++ [Call_print_transcript source])).
Proof.
  intros H [start Hstart] Htext.
  assert (rendered show_timestamps bad = None) as Hbad
    by (unfold rendered; now rewrite Hstart, Htext).
  unfold print_transcript, transcript_header, rule.
  cbv [mbind M_bind bind enter].
  destruct (String.eqb source ""); cbn [negb]; cbv [print];
    cbn [fs stdout temp_dir calls];
    rewrite (PrintFacts.print_segments_stops _ _ _ _ _ _ H Hbad);
    cbn [fs stdout temp_dir calls];
    rewrite <- !List.app_assoc; reflexivity.
Qed.

Lemma print_transcript_missing_text_witness :
  print_transcript
    ([Segment (Some "hi") (Some 65%Q) (Some 1%Q)]
       ++ Segment None (Some 70%Q) None :: [Segment (Some "bye") (Some 75%Q) None])
    (PBool true) "Local AI" Sample.w0
  = (Raise (Exn KeyError "'text'"),
     mkWorld ∅ [transcript_header "Local AI"; rule; "[01:05] hi"] None
       [Call_print_transcript "Local AI"]).
Proof.
  apply (print_transcript_missing_text _ ["[01:05] hi"]);
    [repeat constructor | simpl; eauto | reflexivity].
Defined.

(** ** The recogniser adapter and the downloader, further *)

Module LocalFacts.

Lemma adapt_ok ws : segment_ok (adapt ws).
Proof. repeat split; simpl; eauto. Qed.

(** What the adapter returns has all three keys in every segment, and
    what it raises reads [Local transcription failed: ]. *)
Lemma transcribe_audio_local_ensures env audio_path model_size :
  ensures (Forall segment_ok) (plain_with_prefix "Local transcription failed: ")
    (transcribe_audio_local env audio_path model_size).
Proof.
  unfold transcribe_audio_local. step. step.
  apply (Ensures.ensures_try_except _ anything);
    [|intros e _; apply Ensures.ensures_raise, Ensures.plain].
  step. step. step.
  apply (Ensures.ensures_bind anything); [auto with ensures|]. intros result _.
  apply (Ensures.ensures_bind anything).
  { destruct (wr_language result); [auto with ensures | now apply Ensures.ensures_ret]. }
  intros _ _. apply Ensures.ensures_ret.
  rewrite fold_left_snoc. simpl.
  induction (wr_segments result) as [|ws l IH]; simpl; constructor;
    [apply adapt_ok | assumption].
Qed.


Lemma strip_template_None c rest :
  match rest with
  | String d _ => not_percent d = true
  | EmptyString => True
  end ->
  Str.strip_prefix ".%(ext)s" (String c rest) = None.
Proof.
  intros H. cbn [Str.strip_prefix].
  destruct (Ascii.eqb "." c); [|reflexivity].
  destruct rest as [|d rest]; [reflexivity|].
  unfold not_percent in H. apply negb_true_iff in H.
  rewrite Ascii.eqb_sym in H. now rewrite H.
Qed.

(** Dropping the extension template from a path that ends in it. *)
Lemma replace_template base :
  Str.all not_percent base = true ->
  Str.replace ".%(ext)s" "" (base +:+ ".%(ext)s") = base.
Proof.
  unfold Str.replace. induction base as [|c base IH]; intros H; [reflexivity|].
  simpl in H. apply andb_prop in H as [Hc H].
  rewrite StrFacts.app_cons. cbn [Str.replace_from].
  rewrite strip_template_None.
  - now rewrite IH.
  - destruct base as [|d base]; [reflexivity|].
    rewrite StrFacts.app_cons. simpl in H. now apply andb_prop in H as [Hd _].
Qed.

Lemma first_existing_Some files base : forall exts p,
  first_existing files base exts = Some p ->
  p ∈ files /\ exists ext, In ext exts /\ p = base +:+ ext.
Proof.
  induction exts as [|ext exts IH]; intros p H; [discriminate|].
  simpl in H. destruct (bool_decide (base +:+ ext ∈ files)) eqn:E.
  - injection H as <-. split; [exact (bool_decide_eq_true_1 _ E)|].
    exists ext. split; [now left | reflexivity].
  - destruct (IH p H) as (Hin & ext' & Hext & ->).
    split; [assumption|]. exists ext'. split; [now right | reflexivity].
Qed.

Lemma download_audio_fs env url output_path w :
  fs (download_audio env url output_path w).2
  = dl_fs (ydl_download env url output_path (fs w)).
Proof.
  unfold download_audio.
  cbv [mbind M_bind bind enter print try_except].
  match goal with
  | |- context [ydl_run env url output_path ?w1] =>
      destruct (DownloadFacts.ydl_run_outcome env url output_path w1) as [out ->]
  end.
  cbn [fs]. destruct (dl_error _) as [e|]; [reflexivity|].
  rewrite DownloadFacts.probe_first_existing. cbn [fs].
  now destruct (first_existing _ _ _).
Qed.

End LocalFacts.

(** X14. Whatever segments [get_youtube_transcript] or
    [transcribe_audio_local] returns, [print_transcript] prints them and
    returns normally, whatever the flag, the label and the world: a
    failure inside the [try] block of [get_transcript] can only come from
    the fetch, never from the presenter. *)
Theorem producers_are_printable env :
  (forall video_id w segments,
      (get_youtube_transcript env video_id w).1 = Ret segments ->
      forall show_timestamps source w',
        (print_transcript segments show_timestamps source w').1 = Ret tt) /\
  (forall audio_path model_size w segments,
      (transcribe_audio_local env audio_path model_size w).1 = Ret segments ->
      forall show_timestamps source w',
        (print_transcript segments show_timestamps source w').1 = Ret tt).
Proof.
  assert (forall segments, Forall segment_ok segments ->
            forall show_timestamps source w',
              (print_transcript segments show_timestamps source w').1 = Ret tt) as Hp.
  { intros segments Hok show source w'.
    destruct (PrintFacts.rendered_all show segments Hok) as [lines Hl].
    now rewrite (PrintFacts.print_transcript_lines _ _ _ _ _ Hl). }
  split.
  - intros video_id w segments E. apply Hp.
    pose proof (FetchFacts.get_youtube_transcript_ensures env video_id w) as H.
    now rewrite E in H.
  - intros audio_path model_size w segments E. apply Hp.
    pose proof (LocalFacts.transcribe_audio_local_ensures env audio_path model_size w)
      as H.
    now rewrite E in H.
Qed.

Lemma producers_are_printable_witness :
  let env := Sample.env Sample.hello_captions Sample.m4a_downloader Sample.recogniser in
  (print_transcript [Segment (Some "hello") (Some 0%Q) (Some (3 # 2)%Q)]
     (PBool true) "YouTube" Sample.w0).1 = Ret tt /\
  (print_transcript (map adapt Sample.two_segments) (PBool false) "Local AI"
     Sample.w0).1 = Ret tt.
Proof.
  intros env. split.
  - apply (proj1 (producers_are_printable env) (Some "abc123") Sample.w0).
    reflexivity.
  - apply (proj2 (producers_are_printable env) "/tmp/x.m4a" (PStr "small") Sample.w0).
    reflexivity.
Defined.

(** X15. When the model cannot be loaded, [transcribe_audio_local] raises
    [Local transcription failed: ] followed by the loader's text, having
    printed its first two messages only, and the recogniser is not run;
    when the recogniser fails on the audio, the same wrapper carries the
    recogniser's text, after the third message. Nothing is returned in
    either case. *)
Theorem transcribe_audio_local_failures env audio_path model_size w :
  let said :=
    stdout w ++
    ["🎙️  Initializing Whisper model...";
     "🔄 Loading Whisper '" +:+ py_str model_size
       +:+ "' model (this may take a while on first run)..."] in
  let entered := calls w ++ [Call_transcribe_audio_local audio_path model_size] in
  (forall e files1,
      load_model env model_size (fs w) = (inl e, files1) ->
      transcribe_audio_local env audio_path model_size w =
      (Raise (Exn Exception ("Local transcription failed: " +:+ exn_str e)),
       mkWorld files1 said (temp_dir w) entered)) /\
  (forall model files1 e files2,
      load_model env model_size (fs w) = (inr model, files1) ->
      transcribe model audio_path files1 = (inl e, files2) ->
      transcribe_audio_local env audio_path model_size w =
      (Raise (Exn Exception ("Local transcription failed: " +:+ exn_str e)),
       mkWorld files2 (said ++ ["📝 Transcribing audio..."]) (temp_dir w) entered)).
Proof.
  intros said entered. unfold said, entered. split.
  - intros e files1 Hload. unfold transcribe_audio_local.
    cbv [mbind M_bind bind enter print try_except extern].
    cbn [fs stdout temp_dir calls]. rewrite Hload.
    cbv [raise]. now rewrite <- List.app_assoc.
  - intros model files1 e files2 Hload Hrun. unfold transcribe_audio_local.
    cbv [mbind M_bind bind enter print try_except extern].
    cbn [fs stdout temp_dir calls]. rewrite Hload.
    cbn [fs stdout temp_dir calls]. rewrite Hrun.
    cbv [raise]. now rewrite <- !List.app_assoc.
Qed.

Lemma transcribe_audio_local_failures_witness :
  (transcribe_audio_local
     (Sample.env Sample.no_captions Sample.m4a_downloader Sample.broken_recogniser)
     "/tmp/x.m4a" (PStr "small") Sample.w0).1
  = Raise (Exn Exception "Local transcription failed: out of memory") /\
  (transcribe_audio_local
     (Sample.env Sample.no_captions Sample.m4a_downloader Cases.deaf_recogniser)
     "/tmp/x.m4a" (PStr "small") Sample.w0).1
  = Raise (Exn Exception "Local transcription failed: cannot decode audio").
Proof.
  split.
  - rewrite (proj1 (transcribe_audio_local_failures
                      (Sample.env Sample.no_captions Sample.m4a_downloader
                         Sample.broken_recogniser)
                      "/tmp/x.m4a" (PStr "small") Sample.w0)
               (Exn OtherError "out of memory") ∅ eq_refl).
    reflexivity.
  - erewrite (proj2 (transcribe_audio_local_failures
                       (Sample.env Sample.no_captions Sample.m4a_downloader
                          Cases.deaf_recogniser)
                       "/tmp/x.m4a" (PStr "small") Sample.w0)
                _ ∅ (Exn OtherError "cannot decode audio") ∅ eq_refl eq_refl).
    reflexivity.
Defined.

(** X16. A path that [download_audio] returns is on disk when it returns,
    and it is the output path without its extension template, followed
    by one of the four probed extensions. *)
Theorem download_audio_returns_existing env url output_path w p :
  (download_audio env url output_path w).1 = Ret p ->
  p ∈ fs (download_audio env url output_path w).2 /\
  exists ext,
    In ext audio_exts /\ p = Str.replace ".%(ext)s" "" output_path +:+ ext.
Proof.
  rewrite LocalFacts.download_audio_fs, DownloadFacts.download_audio_result.
  cbv zeta. destruct (dl_error _) as [e|]; [discriminate|].
  destruct (first_existing _ _ _) as [q|] eqn:E; [|discriminate].
  intros [= <-]. now apply LocalFacts.first_existing_Some in E.
Qed.

Lemma download_audio_returns_existing_witness :
  let run :=
    download_audio
      (Sample.env Sample.no_captions Sample.m4a_downloader Sample.recogniser)
      "https://www.youtube.com/watch?v=abc123"
      "/tmp/tmpabcd1234/abc123.%(ext)s" Sample.w0 in
  "/tmp/tmpabcd1234/abc123.m4a" ∈ fs run.2.
Proof.
  intros run.
  apply (download_audio_returns_existing
           (Sample.env Sample.no_captions Sample.m4a_downloader Sample.recogniser)
           "https://www.youtube.com/watch?v=abc123"
           "/tmp/tmpabcd1234/abc123.%(ext)s" Sample.w0
           "/tmp/tmpabcd1234/abc123.m4a").
  reflexivity.
Defined.

(** X17. For an output path made of a base without [%] and the extension
    template, the probe looks exactly beside the template: after a
    completed download the result is the first of [base.m4a],
    [base.webm], [base.mp4], [base.mp3] that is on disk, and the failure
    [Download failed: Downloaded file not found] when none is. *)
Theorem download_audio_probes_beside_template env url base w :
  Str.all not_percent base = true ->
  let o := ydl_download env url (base +:+ ".%(ext)s") (fs w) in
  dl_error o = None ->
  (download_audio env url (base +:+ ".%(ext)s") w).1 =
  match first_existing (dl_fs o) base audio_exts with
  | Some potential_path => Ret potential_path
  | None => Raise (Exn Exception "Download failed: Downloaded file not found")
  end.
Proof.
  intros Hbase o Hok.
  rewrite DownloadFacts.download_audio_result. cbv zeta. fold o.
  rewrite Hok, (LocalFacts.replace_template _ Hbase).
  now destruct (first_existing _ _ _).
Qed.

Lemma download_audio_probes_beside_template_witness :
  (download_audio
     (Sample.env Sample.no_captions Sample.webm_mp3_downloader Sample.recogniser)
     "https://www.youtube.com/watch?v=abc123"
     ("/tmp/tmpabcd1234/abc123" +:+ ".%(ext)s") Sample.w0).1
  = Ret "/tmp/tmpabcd1234/abc123.webm".
Proof.
  rewrite (download_audio_probes_beside_template
             (Sample.env Sample.no_captions Sample.webm_mp3_downloader
                Sample.recogniser)
             "https://www.youtube.com/watch?v=abc123" "/tmp/tmpabcd1234/abc123"
             Sample.w0 eq_refl eq_refl).
  reflexivity.
Defined.

(** ** Local transcription as a whole *)

Module LocalRun.


End LocalRun.



(** X19. However [local_transcription] ends, the directory that it made
    is no longer on disk, and the attribute [temp_dir] still holds its
    path: the clean-up removes the directory and does not reset the
    attribute. *)
Theorem local_transcription_workspace env url options w :
  let dir := Path.join (tmp_root env) ("tmp" +:+ mkdtemp_name env (fs w)) in
  let w' := (local_transcription env url options w).2 in
  temp_dir w' = Some dir /\ dir ∉ fs w'.
Proof.
  intros dir w'. split;
    [|apply WorkspaceFacts.local_transcription_removes_workspace].
  unfold w'.
  set (body :=
         try_except
           (downloaded_path ←
              download_audio env url
                (Path.join dir (str_optional (extract_video_id url) +:+ ".%(ext)s"));
            segments ← transcribe_audio_local env downloaded_path
                         (dict_get options "model" (PStr "small"));
            ret segments)
           (fun e => raise e)).
  set (w1 := mkWorld ({[dir]} ∪ fs w) (stdout w) (Some dir)
               (calls w ++ [Call_local_transcription url])).
  change (local_transcription env url options w) with (try_finally body cleanup w1).
  assert (respects keeps_temp_dir (try_finally body cleanup)) as H
    by (unfold body; Frame.frame).
  now rewrite (H w1).
Qed.

(** ** The orchestrator *)

Module Orchestrator.

(** Every exception that leaves [get_transcript] is one of its own
    three. *)
Lemma get_transcript_ensures env url options :
  ensures anything terminal_error (get_transcript env url options).
Proof.
  unfold get_transcript.
  destruct (negb (is_valid_youtube_url url)).
  { apply Ensures.ensures_raise. now left. }
  step.
  apply (Ensures.ensures_bind anything).
  - destruct (negb (truthy (dict_get options "local_only" (PBool false))));
      [|now apply Ensures.ensures_ret].
    apply (Ensures.ensures_try_except _ anything); [apply Ensures.ensures_any|].
    intros e0 _. destruct (truthy (dict_get options "no_local" (PBool false))).
    + apply Ensures.ensures_raise. right. left. apply Ensures.plain.
    + step. step. now apply Ensures.ensures_ret.
  - intros [|] _; [now apply Ensures.ensures_ret|].
    apply (Ensures.ensures_try_except _ anything); [apply Ensures.ensures_any|].
    intros e0 _. apply Ensures.ensures_raise. right. right. apply Ensures.plain.
Qed.

End Orchestrator.

(** X20. An exception that leaves [get_transcript] is a plain [Exception]
    and reads [Invalid YouTube URL provided], or starts with
    [No transcript available: ], or starts with
    [Local transcription failed: ]; no exception of a collaborator
    escapes unwrapped. *)
Theorem get_transcript_raises env url options w e :
  (get_transcript env url options w).1 = Raise e -> terminal_error e.
Proof.
  intros E. pose proof (Orchestrator.get_transcript_ensures env url options w) as H.
  now rewrite E in H.
Qed.

Lemma get_transcript_raises_witness :
  terminal_error
    (Exn Exception
       "Local transcription failed: Download failed: connection reset").
Proof.
  apply (get_transcript_raises
           (Sample.env Sample.no_captions
              (Sample.failing_downloader "connection reset") Sample.recogniser)
           "https://www.youtube.com/watch?v=abc123" ∅ Sample.w0).
  reflexivity.
Defined.

(** X21. For a valid URL without the [local_only] option, when the fetch
    returns segments, [get_transcript] returns normally: it prints
    them under the label [YouTube], one line for each, leaves the rest
    of the world as the fetch left it, and runs no step of the local
    path. *)
Theorem get_transcript_remote_success env url options w segments w1 :
  is_valid_youtube_url url = true ->
  truthy (dict_get options "local_only" (PBool false)) = false ->
  get_youtube_transcript env (extract_video_id url) (announced url w)
  = (Ret segments, w1) ->
  exists lines,
    Forall2
      (fun seg line =>
         rendered (dict_get options "timestamps" (PBool true)) seg = Some line)
      segments lines /\
    get_transcript env url options w =
    (Ret tt,
     mkWorld (fs w1)
       (stdout w1 ++ [transcript_header "YouTube"; rule] ++ lines ++
        [nl +:+ rule;
         "Total segments: " +:+ Num.str_int (Z.of_nat (length segments))])
       (temp_dir w1)
       (calls w1 ++ [Call_print_transcript "YouTube"])) /\
    calls_extend (fun c => is_local_call c = false) w
      (get_transcript env url options w).2.
Proof.
  intros Hvalid Hlo Hfetch.
  pose proof (FetchFacts.get_youtube_transcript_ensures env (extract_video_id url)
                (announced url w)) as Hok.
  rewrite Hfetch in Hok. cbn [fst] in Hok.
  destruct (PrintFacts.rendered_all
              (dict_get options "timestamps" (PBool true)) segments Hok)
    as [lines Hlines].
  exists lines. split; [assumption|].
  assert (get_transcript env url options w =
          (Ret tt,
           mkWorld (fs w1)
             (stdout w1 ++ [transcript_header "YouTube"; rule] ++ lines ++
              [nl +:+ rule;
               "Total segments: " +:+ Num.str_int (Z.of_nat (length segments))])
             (temp_dir w1)
             (calls w1 ++ [Call_print_transcript "YouTube"]))) as E.
  { unfold get_transcript. rewrite Hvalid, Hlo. cbn [negb].
    cbv [mbind M_bind bind print try_except]. cbn [fs stdout temp_dir calls].
    rewrite <- List.app_assoc. cbn [app].
    unfold announced in Hfetch. rewrite Hfetch.
    now rewrite (PrintFacts.print_transcript_lines _ _ _ _ _ Hlines). }
  split; [exact E|]. rewrite E. cbn [snd].
  pose proof (respects_get_youtube_transcript
                (calls_extend (fun c => is_local_call c = false)) env
                (extract_video_id url) ltac:(auto with frame) (announced url w)) as H.
  rewrite Hfetch in H. cbn [snd] in H. unfold calls_extend, announced in H.
  cbn [calls] in H. destruct H as (tr & Etr & Htr).
  exists (tr ++ [Call_print_transcript "YouTube"]). cbn [calls]. split.
  - now rewrite Etr, <- List.app_assoc.
  - apply Forall_app. split; [assumption | now repeat constructor].
Qed.

Lemma get_transcript_remote_success_witness :
  let env := Sample.env Sample.hello_captions Sample.m4a_downloader Sample.recogniser in
  let url := "https://www.youtube.com/watch?v=abc123" in
  let run := get_transcript env url ∅ Sample.w0 in
  run.1 = Ret tt /\
  stdout run.2 =
    ["Processing video: abc123"; "🔍 Checking for YouTube transcript...";
     transcript_header "YouTube"; rule; "[00:00] hello";
     nl +:+ rule; "Total segments: 1"].
Proof.
  intros env url run.
  destruct (get_transcript_remote_success env url ∅ Sample.w0
              [Segment (Some "hello") (Some 0%Q) (Some (3 # 2)%Q)]
              (mkWorld ∅
                 ["Processing video: abc123"; "🔍 Checking for YouTube transcript..."]
                 None [Call_get_youtube_transcript (Some "abc123")]))
    as (lines & Hlines & E & _); [reflexivity | reflexivity | reflexivity |].
  unfold run. rewrite E. cbn [fst snd stdout].
  inversion Hlines as [|seg line segs ls Hline Hrest]; subst.
  inversion Hrest; subst. injection Hline as <-.
  split; reflexivity.
Defined.

(** ** Standard output only grows *)

Create HintDb grows.

Module Grows.

Lemma refl w : prints_more w w.
Proof. exists []. now rewrite List.app_nil_r. Qed.

Lemma same w w' : stdout w' = stdout w -> prints_more w w'.
Proof. intros E. exists []. now rewrite List.app_nil_r. Qed.

Lemma trans a b c : prints_more a b -> prints_more b c -> prints_more a c.
Proof.
  intros [m1 E1] [m2 E2]. exists (m1 ++ m2). now rewrite E2, E1, <- List.app_assoc.
Qed.

Lemma grows_bind {A B} (m : M A) (k : A -> M B) :
  respects prints_more m -> (forall a, respects prints_more (k a)) ->
  respects prints_more (m ≫= k).
Proof.
  intros Hm Hk w. unfold mbind, M_bind, bind.
  specialize (Hm w). destruct (m w) as [[a|e] w']; simpl in *; [|assumption].
  eapply trans; [eassumption | apply Hk].
Qed.

Lemma grows_try_except {A} (m : M A) h :
  respects prints_more m -> (forall e, respects prints_more (h e)) ->
  respects prints_more (try_except m h).
Proof.
  intros Hm Hh w. unfold try_except.
  specialize (Hm w). destruct (m w) as [[a|e] w']; simpl in *; [assumption|].
  eapply trans; [eassumption | apply Hh].
Qed.

Lemma grows_try_finally {A} (m : M A) c :
  respects prints_more m -> respects prints_more c ->
  respects prints_more (try_finally m c).
Proof.
  intros Hm Hc w. unfold try_finally.
  specialize (Hm w). destruct (m w) as [r w']. specialize (Hc w').
  destruct (c w') as [[u|e] w'']; simpl in *; eapply trans; eassumption.
Qed.

Lemma grows_ret {A} (a : A) : respects prints_more (ret a).
Proof. intros w. apply refl. Qed.

Lemma grows_mret {A} (a : A) : respects prints_more (mret a).
Proof. intros w. apply refl. Qed.

Lemma grows_raise {A} e : respects prints_more (@raise A e).
Proof. intros w. apply refl. Qed.

Lemma grows_lift {A} (x : exn + A) : respects prints_more (lift x).
Proof. destruct x; intros w; apply refl. Qed.

Lemma grows_print l : respects prints_more (print l).
Proof. intros w. now exists [l]. Qed.

Lemma grows_enter c : respects prints_more (enter c).
Proof. intros w. now apply same. Qed.

Lemma grows_set_temp_dir d : respects prints_more (set_temp_dir d).
Proof. intros w. now apply same. Qed.

Lemma grows_get_temp_dir : respects prints_more get_temp_dir.
Proof. intros w. apply refl. Qed.

Lemma grows_exists p : respects prints_more (Path.exists_ p).
Proof. intros w. apply refl. Qed.

Lemma grows_rmtree d : respects prints_more (Path.rmtree d).
Proof. intros w. now apply same. Qed.

Lemma grows_mkdtemp env : respects prints_more (mkdtemp env).
Proof. intros w. now apply same. Qed.

Lemma grows_extern {A} (c : collab A) : respects prints_more (extern c).
Proof. intros w. unfold extern. destruct (c (fs w)) as [[e|a] f]; now apply same. Qed.

End Grows.

#[export] Hint Resolve Grows.grows_ret Grows.grows_mret Grows.grows_raise
  Grows.grows_lift Grows.grows_print Grows.grows_enter Grows.grows_set_temp_dir
  Grows.grows_get_temp_dir Grows.grows_exists Grows.grows_rmtree Grows.grows_mkdtemp
  Grows.grows_extern : grows.

Ltac grows :=
  repeat first
    [ solve [auto with grows]
    | match goal with
      | |- respects prints_more (mbind _ _) => apply Grows.grows_bind; [|intros ?]
      | |- respects prints_more (try_except _ _) =>
          apply Grows.grows_try_except; [|intros ?]
      | |- respects prints_more (try_finally _ _) => apply Grows.grows_try_finally
      | |- respects prints_more (match ?x with _ => _ end) => destruct x
      | |- respects prints_more (if ?x then _ else _) => destruct x
      end ].

Module GrowsMethods.

Lemma grows_run_hooks ds : respects prints_more (run_hooks ds).
Proof. induction ds as [|d ds IH]; simpl; [grows|]. unfold progress_hook. grows. Qed.

Lemma grows_ydl_run env url outtmpl : respects prints_more (ydl_run env url outtmpl).
Proof.
  intros w. unfold ydl_run.
  match goal with
  | |- prints_more w (?m ?w1).2 =>
      assert (respects prints_more m) as H
        by (pose proof grows_run_hooks; grows);
      exact (H w1)
  end.
Qed.

Lemma grows_probe base exts : respects prints_more (probe base exts).
Proof. induction exts as [|e exts IH]; simpl; grows. Qed.

Lemma grows_download_audio env url out : respects prints_more (download_audio env url out).
Proof.
  pose proof grows_ydl_run. pose proof grows_probe. unfold download_audio. grows.
Qed.

Lemma grows_transcribe_audio_local env path size :
  respects prints_more (transcribe_audio_local env path size).
Proof. unfold transcribe_audio_local. grows. Qed.

Lemma grows_cleanup : respects prints_more cleanup.
Proof. unfold cleanup. grows. Qed.

Lemma grows_local_transcription env url options :
  respects prints_more (local_transcription env url options).
Proof.
  pose proof grows_download_audio. pose proof grows_transcribe_audio_local.
  pose proof grows_cleanup. unfold local_transcription. grows.
Qed.

Lemma grows_print_segments show segments :
  respects prints_more (print_segments show segments).
Proof.
  induction segments as [|seg segments IH]; simpl; [grows|].
  unfold print_segment. grows.
Qed.

Lemma grows_print_transcript segments show source :
  respects prints_more (print_transcript segments show source).
Proof. pose proof grows_print_segments. unfold print_transcript. grows. Qed.

End GrowsMethods.

(** X22. For a valid URL with neither [local_only] nor [no_local], when
    the fetch raises, [get_transcript] prints the warning with the text
    of that exception and the fall-back notice right after what the
    fetch printed, then enters [local_transcription]; everything else it
    prints comes after, and it either returns or raises
    [Local transcription failed: ...]. *)
Theorem get_transcript_falls_back env url options w e w1 :
  is_valid_youtube_url url = true ->
  truthy (dict_get options "local_only" (PBool false)) = false ->
  truthy (dict_get options "no_local" (PBool false)) = false ->
  get_youtube_transcript env (extract_video_id url) (announced url w) = (Raise e, w1) ->
  let run := get_transcript env url options w in
  (exists more,
      stdout run.2 =
      stdout w1 ++ ["⚠️  " +:+ exn_str e; "🔄 Falling back to local transcription..."]
        ++ more) /\
  (exists tr, calls run.2 = calls w1 ++ Call_local_transcription url :: tr) /\
  match run.1 with
  | Ret _ => True
  | Raise e' => plain_with_prefix "Local transcription failed: " e'
  end.
Proof.
  intros Hvalid Hlo Hnl Hfetch run.
  set (local_part :=
         try_except
           (segments ← local_transcription env url options;
            print_transcript segments
              (dict_get options "timestamps" (PBool true)) "Local AI")
           (fun e0 => raise (Exn Exception ("Local transcription failed: " +:+ exn_str e0)))).
  set (w2 := mkWorld (fs w1)
               (stdout w1 ++ ["⚠️  " +:+ exn_str e;
                              "🔄 Falling back to local transcription..."])
               (temp_dir w1) (calls w1)).
  assert (run = local_part w2) as E.
  { unfold run, get_transcript. rewrite Hvalid, Hlo. cbn [negb].
    cbv [mbind M_bind bind print try_except]. cbn [fs stdout temp_dir calls].
    rewrite <- List.app_assoc. cbn [app].
    unfold announced in Hfetch. rewrite Hfetch, Hnl.
    cbv [ret]. cbn [fs stdout temp_dir calls].
    rewrite <- List.app_assoc. reflexivity. }
  rewrite E. split; [|split].
  - assert (respects prints_more local_part) as H.
    { pose proof GrowsMethods.grows_local_transcription.
      pose proof GrowsMethods.grows_print_transcript. unfold local_part. grows. }
    destruct (H w2) as [more Hmore]. exists more.
    rewrite Hmore. unfold w2. cbn [stdout].
    now rewrite <- List.app_assoc.
  - unfold local_part. cbv [mbind M_bind bind try_except].
    destruct (local_transcription_first_call env url options w2) as (tr & Etr).
    destruct (local_transcription env url options w2) as [[segs|e0] w3];
      cbn [snd] in Etr.
    + match goal with
      | |- context [print_transcript ?s ?t ?src w3] =>
          destruct (respects_print_transcript (calls_extend (fun _ => True)) s t src
                      ltac:(auto with frame) w3) as (tr2 & E2 & _)
      end.
      exists (tr ++ tr2).
      destruct (print_transcript _ _ _ w3) as [[u|e1] w4]; cbv [raise];
        cbn [snd fst] in *; rewrite E2, Etr, <- List.app_assoc; reflexivity.
    + exists tr. exact Etr.
  - assert (ensures anything (plain_with_prefix "Local transcription failed: ")
              local_part) as H.
    { unfold local_part.
      apply (Ensures.ensures_try_except _ anything); [apply Ensures.ensures_any|].
      intros e0 _. apply Ensures.ensures_raise, Ensures.plain. }
    specialize (H w2). now destruct (local_part w2).1.
Qed.

Lemma get_transcript_falls_back_witness :
  let env := Sample.env Sample.no_captions Sample.m4a_downloader Sample.recogniser in
  let url := "https://www.youtube.com/watch?v=abc123" in
  let run := get_transcript env url ∅ Sample.w0 in
  exists more tr,
    stdout run.2 =
      ["Processing video: abc123"; "🔍 Checking for YouTube transcript...";
       "⚠️  No YouTube transcript available: Subtitles are disabled for this video";
       "🔄 Falling back to local transcription..."] ++ more /\
    calls run.2 =
      [Call_get_youtube_transcript (Some "abc123")]
        ++ Call_local_transcription url :: tr.
Proof.
  intros env url run.
  destruct (get_transcript_falls_back env url ∅ Sample.w0
              (Exn Exception
                 "No YouTube transcript available: Subtitles are disabled for this video")
              (mkWorld ∅
                 ["Processing video: abc123"; "🔍 Checking for YouTube transcript..."]
                 None [Call_get_youtube_transcript (Some "abc123")]))
    as ([more Hmore] & [tr Htr] & _);
    [reflexivity | reflexivity | reflexivity | reflexivity |].
  exists more, tr. split; [exact Hmore | exact Htr].
Defined.

(** ** The command line *)


(** X24. For a URL in which no identifier is found, [main] exits with
    status 1 and [Error: Invalid YouTube URL provided] on standard
    error, whatever the options; nothing is printed on standard output,
    no collaborator is called and the disk is untouched. *)
Theorem main_invalid_url env c w :
  extract_video_id (cli_url c) = None ->
  main env c w = Ending 1 ["Error: Invalid YouTube URL provided"] w.
Proof.
  intros H. unfold main, get_transcript, is_valid_youtube_url.
  cbn [parse_args args_url]. now rewrite H.
Qed.

Lemma main_invalid_url_witness :
  main (Sample.env Sample.hello_captions Sample.m4a_downloader Sample.recogniser)
    (Cli "https://example.com/watch" false true true false (Some "base")) Sample.w0
  = Ending 1 ["Error: Invalid YouTube URL provided"] Sample.w0.
Proof.
  apply (main_invalid_url
           (Sample.env Sample.hello_captions Sample.m4a_downloader Sample.recogniser)
           (Cli "https://example.com/watch" false true true false (Some "base"))
           Sample.w0).
  reflexivity.
Defined.
